(** * rr-thread-pool: the bounded message queue and its typed wrapper

    A shallow embedding of [src/MessageQueue.cpp] (class [MessageQueuePosix])
    and of the template [MessageQueueT<M>] of [src/MessageQueue.h].

    The queue is a monitor: every member function runs its body while it
    holds [m_mutex], so a call is one atomic step on the object's fields.
    The single exception is [pop] with [blocking == true], which releases
    the mutex inside [m_cond.wait] and lets other threads run their own
    critical sections before it goes on. *)

From Stdlib Require Import ZArith List Bool Lia Eqdep_dec.
From Stdlib Require String.
Import ListNotations.

Local Open Scope Z_scope.

(** ** [std::size_t] *)

(** [std::numeric_limits<std::size_t>::max()], the default capacity
    (64-bit [size_t]). *)
Definition SIZE_MAX : Z := 2 ^ 64 - 1.

(** Unsigned arithmetic on [size_t] wraps around. *)
Definition size_t_wrap (z : Z) : Z := z mod (SIZE_MAX + 1).

Definition in_size_t (z : Z) : Prop := 0 <= z <= SIZE_MAX.

(** ** The condition variable *)

(** Modelled from the spec: [ThreadPosix.h] ([MutexPosix], [CondPosix],
    [Locker]) is not among the sources.  The queue has one mutex and one
    condition variable used with it: [signal] wakes one waiter,
    [broadcast] wakes them all, and a waiter must check its condition
    again after every wake-up, which may come for no reason.  The
    notifications a queue has issued are kept as a log; the wake-ups are
    an argument of the blocking [pop]. *)
Inductive cond_event : Type :=
| signal
| broadcast.

(** ** [MessageQueuePosix] *)

Module MessageQueuePosix.

Section Untyped.

(** [IMessagePtr], the shared handle to a message; [Message.h], which
    declares it, is not among the sources, and the queue only stores and
    copies it. *)
Context {IMessagePtr : Type}.

Record t : Type := mk {
  m_max_capacity : Z;
  m_cancelled : bool;
  m_cond : list cond_event;
  m_queue : list IMessagePtr
}.

Definition with_queue (q : t) (l : list IMessagePtr) : t :=
  mk (m_max_capacity q) (m_cancelled q) (m_cond q) l.

Definition with_cancelled (q : t) (b : bool) : t :=
  mk (m_max_capacity q) b (m_cond q) (m_queue q).

Definition notify (q : t) (e : cond_event) : t :=
  mk (m_max_capacity q) (m_cancelled q) (m_cond q ++ [e]) (m_queue q).

(** [MessageQueuePosix( max_capacity )], reached through
    [IMessageQueue::create]. *)
Definition create (max_capacity : Z) : t :=
  mk max_capacity false [] [].

(** [m_queue.size( )] *)
Definition queue_size (q : t) : Z := Z.of_nat (length (m_queue q)).

(** [m_queue.front( )] and [m_queue.pop_front( )]; the callers guard both
    with [ret > 0]. *)
Definition front (q : t) (otherwise : IMessagePtr) : IMessagePtr :=
  hd otherwise (m_queue q).

Definition pop_front (q : t) : t := with_queue q (tl (m_queue q)).

Definition push_back (q : t) (message : IMessagePtr) : t :=
  with_queue q (m_queue q ++ [message]).

(** [push( IMessagePtr message )] *)
Definition push (q : t) (message : IMessagePtr) : Z * t :=
  let ret := queue_size q in
  if ret <? m_max_capacity q then
    let q := push_back q message in
    let ret := size_t_wrap (ret + 1) in
    if ret =? 1 then (ret, notify q signal) else (ret, q)
  else
    (0, q).

(** [cancel( )] *)
Definition cancel (q : t) : t :=
  notify (with_cancelled q true) broadcast.

(** [is_cancelled( )] *)
Definition is_cancelled (q : t) : bool := m_cancelled q.

(** [size( )] *)
Definition size (q : t) : Z := queue_size q.

(** What a call of [pop] has come to: it has returned [ret], leaving
    [message] in the out-parameter, or the calling thread is still
    suspended inside [m_cond.wait]. *)
Inductive pop_result : Type :=
| Returned (ret : Z) (message : IMessagePtr) (q : t)
| Suspended (message : IMessagePtr) (q : t).

(** A call made by some thread, with its arguments. *)
Inductive call : Type :=
| CallPush (message : IMessagePtr)
| CallPop (message : IMessagePtr) (blocking : bool)
| CallCancel
| CallIsCancelled
| CallSize.

(** What a critical section hands back to its thread. *)
Inductive answer : Type :=
| PushRet (ret : Z)
| PopRet (ret : Z) (message : IMessagePtr)
| PopWaits
| CancelRet
| IsCancelledRet (b : bool)
| SizeRet (n : Z).

(** The [else] branch of [pop]: the non-blocking implementation. *)
Definition pop_nonblocking (q : t) (message : IMessagePtr) : pop_result :=
  let ret := queue_size q in
  if 0 <? ret then Returned ret (front q message) (pop_front q)
  else Returned ret message q.

(** One turn of [while ( !m_cancelled )] up to [m_cond.wait]: [inl] when
    the loop is left (the condition fails, or [break] after a removal),
    [inr] when the thread goes to sleep, with the value [ret] has then. *)
Definition pop_turn (q : t) (message : IMessagePtr) (ret : Z)
  : (Z * IMessagePtr * t) + Z :=
  if m_cancelled q then inl (ret, message, q)
  else
    let ret := queue_size q in
    if 0 <? ret then inl (ret, front q message, pop_front q)
    else inr ret.

(** One critical section: a whole call, except for a blocking [pop] that
    has to wait, which gives the mutex back with the queue as it was. *)
Definition critical_section (q : t) (c : call) : answer * t :=
  match c with
  | CallPush message => let (ret, q') := push q message in (PushRet ret, q')
  | CallPop message false =>
      match pop_nonblocking q message with
      | Returned ret message q' => (PopRet ret message, q')
      | Suspended _ q' => (PopWaits, q')
      end
  | CallPop message true =>
      match pop_turn q message 0 with
      | inl (ret, message, q') => (PopRet ret message, q')
      | inr _ => (PopWaits, q)
      end
  | CallCancel => (CancelRet, cancel q)
  | CallIsCancelled => (IsCancelledRet (is_cancelled q), q)
  | CallSize => (SizeRet (size q), q)
  end.

(** What the critical sections of other threads do to the queue while
    this thread sleeps in [m_cond.wait]. *)
Definition interfere (q : t) (c : call) : t := snd (critical_section q c).

Definition interference (q : t) (w : list call) : t := fold_left interfere w q.

(** The blocking branch of [pop].  Each element of [wakes] is one return of
    [m_cond.wait]: the critical sections other threads ran while the mutex
    was released (none at all for a spurious wake-up).  When [wakes] is
    used up the thread is still asleep. *)
Fixpoint pop_blocking (wakes : list (list call)) (q : t)
    (message : IMessagePtr) (ret : Z) : pop_result :=
  match pop_turn q message ret with
  | inl (ret, message, q) => Returned ret message q
  | inr ret =>
      match wakes with
      | [] => Suspended message q
      | w :: wakes =>
          let q := interference q w in
          if m_cancelled q then Returned ret message q
          else pop_blocking wakes q message ret
      end
  end.

(** [pop( IMessagePtr& message, bool blocking )] *)
Definition pop (q : t) (message : IMessagePtr) (blocking : bool)
    (wakes : list (list call)) : pop_result :=
  let ret := 0 in
  if blocking then pop_blocking wakes q message ret
  else pop_nonblocking q message.

Definition queue_after (r : pop_result) : t :=
  match r with
  | Returned _ _ q => q
  | Suspended _ q => q
  end.

(** A whole call by one thread, with the wake-ups of its waits; only a
    blocking [pop] looks at them. *)
Definition perform (q : t) (o : call * list (list call)) : t :=
  match o with
  | (CallPop message blocking, wakes) =>
      queue_after (pop q message blocking wakes)
  | (c, _) => interfere q c
  end.

Definition perform_all (q : t) (os : list (call * list (list call))) : t :=
  fold_left perform os q.

(** ** Histories

    The mutex puts the critical sections of all threads in one order.  A
    history is run in that order; a push counts as successful when it
    returns a count above zero, and so does a pop. *)
Definition pushed_by (c : call) (a : answer) : list IMessagePtr :=
  match c, a with
  | CallPush message, PushRet ret => if 0 <? ret then [message] else []
  | _, _ => []
  end.

Definition popped_by (a : answer) : list IMessagePtr :=
  match a with
  | PopRet ret message => if 0 <? ret then [message] else []
  | _ => []
  end.

Record history : Type := mk_history {
  now : t;
  pushes : list IMessagePtr;
  pops : list IMessagePtr
}.

Definition record_section (h : history) (c : call) : history :=
  let (a, q') := critical_section (now h) c in
  mk_history q' (pushes h ++ pushed_by c a) (pops h ++ popped_by a).

Definition run (q : t) (cs : list call) : history :=
  fold_left record_section cs (mk_history q [] []).

(** ** The class invariant *)

Definition capacity_inv (q : t) : Prop :=
  0 <= queue_size q <= m_max_capacity q.

(** A queue as the program can have it: the capacity is a [size_t] and
    the stored count has not passed it. *)
Definition well_formed (q : t) : Prop :=
  in_size_t (m_max_capacity q) /\ capacity_inv q.

End Untyped.

Arguments t : clear implicits.
Arguments call : clear implicits.
Arguments answer : clear implicits.
Arguments pop_result : clear implicits.
Arguments history : clear implicits.

End MessageQueuePosix.

(** ** [std::shared_ptr] *)

(** A shared handle is null or refers to a live object at an address of
    the heap.  The objects of this program are never written to after
    their construction, so the handle carries the object it refers to. *)
Inductive shared_ptr (A : Type) : Type :=
| nullptr
| ptr (addr : positive) (obj : A).

Arguments nullptr {A}.
Arguments ptr {A}.

(** [p.get()], with [0] for the null pointer. *)
Definition get {A : Type} (p : shared_ptr A) : N :=
  match p with
  | nullptr => 0%N
  | ptr addr _ => Npos addr
  end.

(** ** [MessageQueueT<M>] *)

Module MessageQueueT.

Section Typed.

(** The C++ types used as payloads, each with its values; [typeid]s can be
    compared at run time. *)
Variable type_id : Type.
Variable type_eq_dec : forall a b : type_id, {a = b} + {a <> b}.
Variable value : type_id -> Type.

(** Modelled from the spec: [Message.h] is not among the sources.  A
    message is a shared handle to a polymorphic payload whose concrete type
    can be recovered at run time.  The dynamic types below [IMessage] are
    the holders [MessageImpl<P>] of this template and whatever else
    derives from [IMessage], such as the tasks of [Task.h]. *)
Inductive IMessage : Type :=
| MessageImpl (P : type_id) (m_payload : value P)
| ITask (task : nat).

(** [Message] of [Message.h]. *)
Definition Message : Type := shared_ptr IMessage.

(** [std::dynamic_pointer_cast< MessageImpl<M> >]: the same address when
    the object is a [MessageImpl<M>], the null pointer otherwise. *)
Definition dynamic_pointer_cast (M : type_id) (p : Message)
  : shared_ptr (value M) :=
  match p with
  | ptr addr (MessageImpl P m_payload) =>
      match type_eq_dec P M with
      | left e => ptr addr (eq_rect P value m_payload M e)
      | right _ => nullptr
      end
  | _ => nullptr
  end.

(** A [MessageQueueT<M>] holds the untyped queue it was built on. *)
Record t (M : type_id) : Type := mk {
  m_impl : MessageQueuePosix.t Message
}.

Arguments mk {M}.
Arguments m_impl {M}.

(** [MessageQueueT(std::size_t max_capacity)] *)
Definition create (M : type_id) (max_capacity : Z) : t M :=
  mk (MessageQueuePosix.create max_capacity).

(** [push(const M &message)]; [addr] is where [new] puts the holder. *)
Definition push {M : type_id} (q : t M) (addr : positive) (message : value M)
  : Z * t M :=
  let new_message : Message := ptr addr (MessageImpl M message) in
  let (ret, impl) := MessageQueuePosix.push (m_impl q) new_message in
  (ret, mk impl).

(** [cancel()], [is_cancelled()], [size()] *)
Definition cancel {M : type_id} (q : t M) : t M :=
  mk (MessageQueuePosix.cancel (m_impl q)).

Definition is_cancelled {M : type_id} (q : t M) : bool :=
  MessageQueuePosix.is_cancelled (m_impl q).

Definition size {M : type_id} (q : t M) : Z :=
  MessageQueuePosix.size (m_impl q).

(** The calls other threads can make on a [MessageQueueT<M>]; [m_impl] is
    private, so these are the only way to the untyped queue. *)
Inductive call (M : type_id) : Type :=
| CallPush (addr : positive) (message : value M)
| CallPop (blocking : bool)
| CallCancel
| CallIsCancelled
| CallSize.

Arguments CallPush {M}.
Arguments CallPop {M}.
Arguments CallCancel {M}.
Arguments CallIsCancelled {M}.
Arguments CallSize {M}.

(** The call on [m_impl] a typed call comes down to. *)
Definition lower {M : type_id} (c : call M) : MessageQueuePosix.call Message :=
  match c with
  | CallPush addr message =>
      MessageQueuePosix.CallPush (ptr addr (MessageImpl M message))
  | CallPop blocking => MessageQueuePosix.CallPop nullptr blocking
  | CallCancel => MessageQueuePosix.CallCancel
  | CallIsCancelled => MessageQueuePosix.CallIsCancelled
  | CallSize => MessageQueuePosix.CallSize
  end.

(** What a call of the typed [pop] has come to.  The two [assert]s and
    the dereference of [message] are the places where it can go wrong. *)
Inductive pop_result (M : type_id) : Type :=
| Returned (ret : Z) (dst_message : value M) (q : t M)
| Suspended (dst_message : value M) (q : t M)
| AssertNotNullFailed
| AssertSamePointerFailed
| NullDereferenced.

Arguments Returned {M}.
Arguments Suspended {M}.
Arguments AssertNotNullFailed {M}.
Arguments AssertSamePointerFailed {M}.
Arguments NullDereferenced {M}.

(** [pop(M &dst_message, bool blocking)] *)
Definition pop {M : type_id} (q : t M) (dst_message : value M)
    (blocking : bool) (wakes : list (list (call M))) : pop_result M :=
  let abstract_message : Message := nullptr in
  match MessageQueuePosix.pop (m_impl q) abstract_message blocking
          (map (map lower) wakes) with
  | MessageQueuePosix.Suspended _ impl => Suspended dst_message (mk impl)
  | MessageQueuePosix.Returned ret abstract_message impl =>
      if 0 <? ret then
        if (get abstract_message =? 0)%N then AssertNotNullFailed
        else
          let message := dynamic_pointer_cast M abstract_message in
          if negb (get message =? get abstract_message)%N
          then AssertSamePointerFailed
          else
            match message with
            | ptr _ m_payload => Returned ret m_payload (mk impl)
            | nullptr => NullDereferenced
            end
      else Returned ret dst_message (mk impl)
  end.

(** The call has not tripped an [assert] nor gone through a null
    [message]. *)
Definition went_well {M : type_id} (r : pop_result M) : bool :=
  match r with
  | Returned _ _ _ | Suspended _ _ => true
  | AssertNotNullFailed | AssertSamePointerFailed | NullDereferenced => false
  end.

(** The queue after the critical sections [cs] of its users. *)
Definition after {M : type_id} (q : t M) (cs : list (call M)) : t M :=
  mk (MessageQueuePosix.interference (m_impl q) (map lower cs)).

(** Every stored handle refers to a [MessageImpl<M>]. *)
Definition holds_impl (M : type_id) (p : Message) : Prop :=
  exists addr m_payload, p = ptr addr (MessageImpl M m_payload).

End Typed.

Arguments MessageImpl {type_id value}.
Arguments ITask {type_id value}.
Arguments mk {type_id value M}.
Arguments m_impl {type_id value M}.
Arguments create {type_id value}.
Arguments push {type_id value M}.
Arguments cancel {type_id value M}.
Arguments is_cancelled {type_id value M}.
Arguments size {type_id value M}.
Arguments CallPush {type_id value M}.
Arguments CallPop {type_id value M}.
Arguments CallCancel {type_id value M}.
Arguments CallIsCancelled {type_id value M}.
Arguments CallSize {type_id value M}.
Arguments lower {type_id value M}.
Arguments Returned {type_id value M}.
Arguments Suspended {type_id value M}.
Arguments AssertNotNullFailed {type_id value M}.
Arguments AssertSamePointerFailed {type_id value M}.
Arguments NullDereferenced {type_id value M}.
Arguments pop {type_id} type_eq_dec {value M}.
Arguments went_well {type_id value M}.
Arguments after {type_id value M}.
Arguments holds_impl {type_id value}.
Arguments dynamic_pointer_cast {type_id} type_eq_dec {value}.

End MessageQueueT.

(** ** Payload types for the examples *)

Inductive example_type : Type :=
| TInt
| TBool.

Definition example_value (T : example_type) : Type :=
  match T with
  | TInt => Z
  | TBool => bool
  end.

Definition example_type_eq_dec (a b : example_type) : {a = b} + {a <> b}.
Proof. decide equality. Defined.

(** ** Queues for the examples *)

Module Examples.

Import String.

Definition a : string := "a"%string.
Definition b : string := "b"%string.
Definition c : string := "c"%string.
Definition z : string := "z"%string.

(** Capacity 2, holding "a". *)
Definition holds_a : MessageQueuePosix.t string :=
  snd (MessageQueuePosix.push (MessageQueuePosix.create 2) a).

(** Capacity 2, holding "a" and "b": full. *)
Definition holds_a_b : MessageQueuePosix.t string :=
  snd (MessageQueuePosix.push holds_a b).

(** Capacity 2, cancelled while empty. *)
Definition cancelled_empty : MessageQueuePosix.t string :=
  MessageQueuePosix.cancel (MessageQueuePosix.create 2).

(** Capacity 2, cancelled while it holds "a". *)
Definition cancelled_holds_a : MessageQueuePosix.t string :=
  MessageQueuePosix.cancel holds_a.

(** The scenario of three pushes and three pops, as critical sections. *)
Definition three_in_three_out : list (MessageQueuePosix.call string) :=
  [MessageQueuePosix.CallPush a; MessageQueuePosix.CallPush b;
   MessageQueuePosix.CallPush c;
   MessageQueuePosix.CallPop z false; MessageQueuePosix.CallPop z false;
   MessageQueuePosix.CallPop z false].

(** A consumer that waits, is woken once for nothing, and then finds "a"
    pushed by another thread. *)
Definition waits_for_a
  : MessageQueuePosix.call string * list (list (MessageQueuePosix.call string)) :=
  (MessageQueuePosix.CallPop z true, [[]; [MessageQueuePosix.CallPush a]]).

(** A [MessageQueueT<int>] of capacity 2, fresh and cancelled. *)
Definition int_queue : MessageQueueT.t example_type example_value TInt :=
  MessageQueueT.create TInt 2.

Definition cancelled_int_queue
  : MessageQueueT.t example_type example_value TInt :=
  MessageQueueT.cancel int_queue.

End Examples.

(** ** [IMessageQueue::popT<Derived>] *)

Module IMessageQueue.

Section PopT.

Variable type_id : Type.
Variable type_eq_dec : forall a b : type_id, {a = b} + {a <> b}.
Variable value : type_id -> Type.

(** The classes a caller can name as [Derived]: [IMessage] itself, a
    holder [MessageImpl<P>], or [ITask], which every task derives from. *)
Inductive class : Type :=
| IMessageBase
| MessageImplOf (P : type_id)
| ITaskBase.

(** Whether the dynamic type of an object is [Derived] or derives from
    it. *)
Definition is_a (obj : MessageQueueT.IMessage type_id value) (Derived : class)
  : bool :=
  match Derived, obj with
  | IMessageBase, _ => true
  | MessageImplOf M, MessageQueueT.MessageImpl P _ =>
      if type_eq_dec P M then true else false
  | ITaskBase, MessageQueueT.ITask _ => true
  | _, _ => false
  end.

(** [std::dynamic_pointer_cast<Derived>]: the same handle when the object
    is a [Derived], the null pointer otherwise. *)
Definition dynamic_pointer_cast (Derived : class)
    (p : MessageQueueT.Message type_id value)
  : MessageQueueT.Message type_id value :=
  match p with
  | ptr addr obj => if is_a obj Derived then ptr addr obj else nullptr
  | nullptr => nullptr
  end.

(** What a call of [popT] has come to. *)
Inductive popT_result : Type :=
| Returned (ret : Z) (message : MessageQueueT.Message type_id value)
    (q : MessageQueuePosix.t (MessageQueueT.Message type_id value))
| Suspended (message : MessageQueueT.Message type_id value)
    (q : MessageQueuePosix.t (MessageQueueT.Message type_id value))
| AssertNotNullFailed
| AssertSamePointerFailed.

(** [popT(std::shared_ptr<Derived> &message, bool blocking)] *)
Definition popT (Derived : class)
    (q : MessageQueuePosix.t (MessageQueueT.Message type_id value))
    (message : MessageQueueT.Message type_id value) (blocking : bool)
    (wakes : list (list (MessageQueuePosix.call
                           (MessageQueueT.Message type_id value))))
  : popT_result :=
  let abstract_message : MessageQueueT.Message type_id value := nullptr in
  match MessageQueuePosix.pop q abstract_message blocking wakes with
  | MessageQueuePosix.Suspended _ q' => Suspended message q'
  | MessageQueuePosix.Returned ret abstract_message q' =>
      if 0 <? ret then
        if (get abstract_message =? 0)%N then AssertNotNullFailed
        else
          let message := dynamic_pointer_cast Derived abstract_message in
          if negb (get message =? get abstract_message)%N
          then AssertSamePointerFailed
          else Returned ret message q'
      else Returned ret message q'
  end.

End PopT.

Arguments IMessageBase {type_id}.
Arguments MessageImplOf {type_id}.
Arguments ITaskBase {type_id}.
Arguments is_a {type_id} type_eq_dec {value}.
Arguments dynamic_pointer_cast {type_id} type_eq_dec {value}.
Arguments Returned {type_id value}.
Arguments Suspended {type_id value}.
Arguments AssertNotNullFailed {type_id value}.
Arguments AssertSamePointerFailed {type_id value}.
Arguments popT {type_id} type_eq_dec {value}.

End IMessageQueue.

(** ** Producers and consumers of a [MessageQueueT<M>] *)

Module Users.

Section Users.

Variable type_id : Type.
Variable type_eq_dec : forall a b : type_id, {a = b} + {a <> b}.
Variable value : type_id -> Type.

(** The holder [new MessageImpl<M>(message)] makes at [addr]. *)
Definition box (M : type_id) (av : positive * value M)
  : MessageQueueT.Message type_id value :=
  ptr (fst av) (MessageQueueT.MessageImpl M (snd av)).

(** A producer that calls [push] on each value in turn, whatever the
    calls return; each value comes with the address [new] gives its
    holder. *)
Fixpoint push_each {M : type_id} (q : MessageQueueT.t type_id value M)
    (avs : list (positive * value M))
  : list Z * MessageQueueT.t type_id value M :=
  match avs with
  | [] => ([], q)
  | (addr, v) :: avs =>
      let (ret, q) := MessageQueueT.push q addr v in
      let (rets, q) := push_each q avs in
      (ret :: rets, q)
  end.

(** A consumer that calls [pop] without blocking up to [n] times and
    stops at the first call that returns 0; [None] when a call trips an
    [assert]. *)
Fixpoint pop_up_to {M : type_id} (n : nat) (q : MessageQueueT.t type_id value M)
    (dst_message : value M)
  : option (list (value M) * MessageQueueT.t type_id value M) :=
  match n with
  | O => Some ([], q)
  | S n =>
      match MessageQueueT.pop type_eq_dec q dst_message false [] with
      | MessageQueueT.Returned ret dst_message q =>
          if 0 <? ret then
            match pop_up_to n q dst_message with
            | Some (vs, q) => Some (dst_message :: vs, q)
            | None => None
            end
          else Some ([], q)
      | _ => None
      end
  end.

End Users.

Arguments box {type_id value}.
Arguments push_each {type_id value M}.
Arguments pop_up_to {type_id} type_eq_dec {value M}.

End Users.

(** ** More queues for the examples *)

Module Scenarios.

Import String.

Definition x : string := "x"%string.

(** Capacity 0. *)
Definition no_room : MessageQueuePosix.t string := MessageQueuePosix.create 0.

(** Capacity 2, empty. *)
Definition fresh : MessageQueuePosix.t string := MessageQueuePosix.create 2.

(** An untyped queue of capacity 3 that holds, in this order, a
    [MessageImpl<int>] with 7 at address 1, a task at address 2, and a null
    handle. *)
Definition mixed
  : MessageQueuePosix.t (MessageQueueT.Message example_type example_value) :=
  MessageQueuePosix.interference (MessageQueuePosix.create 3)
    [MessageQueuePosix.CallPush
       (ptr 1%positive (MessageQueueT.MessageImpl TInt 7));
     MessageQueuePosix.CallPush (ptr 2%positive (MessageQueueT.ITask 0));
     MessageQueuePosix.CallPush nullptr].

End Scenarios.

(** * Properties of [MessageQueuePosix] *)

Module MessageQueuePosixFacts.

Import MessageQueuePosix.

Section Facts.

Context {IMessagePtr : Type}.

Implicit Types (q : t IMessagePtr) (message : IMessagePtr).
Implicit Types (wakes : list (list (call IMessagePtr))).

Lemma queue_size_nonneg q : 0 <= queue_size q.
Proof. unfold queue_size. lia. Qed.

Lemma queue_size_zero q : queue_size q = 0 <-> m_queue q = [].
Proof.
  unfold queue_size. destruct (m_queue q); simpl; split; intros H;
    try reflexivity; try discriminate; lia.
Qed.

Lemma size_t_wrap_small z : in_size_t z -> size_t_wrap z = z.
Proof.
  unfold in_size_t, size_t_wrap. intros H. apply Z.mod_small. lia.
Qed.

(** The two branches of [push], read off the stored count. *)
Lemma push_full q message :
  m_max_capacity q <= queue_size q -> push q message = (0, q).
Proof.
  intros H. unfold push.
  destruct (Z.ltb_spec (queue_size q) (m_max_capacity q)); [lia | reflexivity].
Qed.

Lemma push_room q message :
  in_size_t (m_max_capacity q) ->
  queue_size q < m_max_capacity q ->
  fst (push q message) = queue_size q + 1 /\
  m_queue (snd (push q message)) = m_queue q ++ [message] /\
  m_cancelled (snd (push q message)) = m_cancelled q /\
  m_max_capacity (snd (push q message)) = m_max_capacity q.
Proof.
  intros Hcap Hlt. unfold push.
  destruct (Z.ltb_spec (queue_size q) (m_max_capacity q)); [| lia].
  assert (Hw : size_t_wrap (queue_size q + 1) = queue_size q + 1).
  { apply size_t_wrap_small. pose proof (queue_size_nonneg q).
    unfold in_size_t in *. lia. }
  rewrite Hw.
  destruct (queue_size q + 1 =? 1); simpl; repeat split; reflexivity.
Qed.

(** The queue a push leaves never depends on the wrap of [ret]. *)
Lemma push_queue q message :
  m_queue (snd (push q message)) =
    if queue_size q <? m_max_capacity q then m_queue q ++ [message]
    else m_queue q.
Proof.
  unfold push. destruct (queue_size q <? m_max_capacity q); [| reflexivity].
  destruct (size_t_wrap (queue_size q + 1) =? 1); reflexivity.
Qed.

Lemma push_fields q message :
  m_cancelled (snd (push q message)) = m_cancelled q /\
  m_max_capacity (snd (push q message)) = m_max_capacity q.
Proof.
  unfold push. destruct (queue_size q <? m_max_capacity q); [| split; reflexivity].
  destruct (size_t_wrap (queue_size q + 1) =? 1); split; reflexivity.
Qed.

(** C1. On a queue whose count has not passed its capacity, [push] returns
    0 exactly when the stored count equals [m_max_capacity], and then the
    queue is left as it was; otherwise the message is appended at the tail
    and the previous count plus one, at least 1, is returned. *)
Theorem push_zero_iff_at_capacity q message :
  well_formed q ->
  (fst (push q message) = 0 <-> queue_size q = m_max_capacity q) /\
  (queue_size q = m_max_capacity q -> push q message = (0, q)) /\
  (queue_size q <> m_max_capacity q ->
     m_queue (snd (push q message)) = m_queue q ++ [message] /\
     fst (push q message) = queue_size q + 1 /\
     1 <= fst (push q message)).
Proof.
  intros [Hcap [Hlo Hhi]].
  assert (Hfull : queue_size q = m_max_capacity q -> push q message = (0, q)).
  { intros E. apply push_full. lia. }
  assert (Hroom : queue_size q <> m_max_capacity q ->
     m_queue (snd (push q message)) = m_queue q ++ [message] /\
     fst (push q message) = queue_size q + 1 /\
     1 <= fst (push q message)).
  { intros N. destruct (push_room q message Hcap) as (Hr & Hq & _); [lia |].
    rewrite Hr. repeat split; [exact Hq | lia]. }
  split; [| split; assumption].
  split.
  - intros H0. destruct (Z.eq_dec (queue_size q) (m_max_capacity q)) as [E | N];
      [exact E |].
    destruct (Hroom N) as (_ & _ & H1). lia.
  - intros E. rewrite (Hfull E). reflexivity.
Qed.

(** ** [pop] *)

Lemma pop_turn_cancelled q message ret :
  m_cancelled q = true -> pop_turn q message ret = inl (ret, message, q).
Proof. intros H. unfold pop_turn. rewrite H. reflexivity. Qed.

Lemma pop_turn_nonempty q message ret head rest :
  m_cancelled q = false -> m_queue q = head :: rest ->
  pop_turn q message ret = inl (queue_size q, head, with_queue q rest).
Proof.
  intros Hc Hq. unfold pop_turn, front, pop_front, queue_size.
  rewrite Hc, Hq. reflexivity.
Qed.

Lemma pop_turn_empty q message ret :
  m_cancelled q = false -> m_queue q = [] -> pop_turn q message ret = inr 0.
Proof.
  intros Hc Hq. unfold pop_turn, queue_size. rewrite Hc, Hq. reflexivity.
Qed.

Lemma pop_nonblocking_empty q message :
  m_queue q = [] -> pop_nonblocking q message = Returned 0 message q.
Proof.
  intros Hq. unfold pop_nonblocking, queue_size. rewrite Hq. reflexivity.
Qed.

Lemma pop_nonblocking_nonempty q message head rest :
  m_queue q = head :: rest ->
  pop_nonblocking q message = Returned (queue_size q) head (with_queue q rest).
Proof.
  intros Hq. unfold pop_nonblocking, front, pop_front, queue_size.
  rewrite Hq. reflexivity.
Qed.

Lemma queue_size_cons q head rest :
  m_queue q = head :: rest -> 1 <= queue_size q.
Proof. intros Hq. unfold queue_size. rewrite Hq. simpl length. lia. Qed.

(** C3. [pop] with [blocking == false] always returns: with 0 exactly when
    the queue is empty, and then neither the out-parameter nor the queue
    has changed; otherwise the head has left the queue for the
    out-parameter and the count before the removal, at least 1, is
    returned. *)
Theorem pop_nonblocking_zero_iff_empty q message wakes :
  exists ret message' q',
    pop q message false wakes = Returned ret message' q' /\
    (ret = 0 <-> m_queue q = []) /\
    (m_queue q = [] -> message' = message /\ q' = q) /\
    (forall head rest, m_queue q = head :: rest ->
       message' = head /\ q' = with_queue q rest /\
       ret = queue_size q /\ 1 <= ret).
Proof.
  unfold pop. destruct (m_queue q) as [| head rest] eqn:Hq.
  - exists 0, message, q. rewrite (pop_nonblocking_empty q message Hq).
    repeat split; try reflexivity; discriminate.
  - exists (queue_size q), head, (with_queue q rest).
    rewrite (pop_nonblocking_nonempty q message head rest Hq).
    pose proof (queue_size_cons q head rest Hq) as H1.
    split; [reflexivity |]. split; [| split].
    + split; [lia | discriminate].
    + discriminate.
    + intros head' rest' E. inversion E; subst. repeat split. exact H1.
Qed.

(** C10. The non-blocking [pop] does not look at the cancellation flag: on
    a cancelled, non-empty queue it removes and returns the head with the
    count before the removal, and the same call on the queue with the flag
    down gives the same count, the same message and the same stored
    messages. *)
Theorem pop_nonblocking_ignores_cancellation q message wakes head rest :
  m_cancelled q = true ->
  m_queue q = head :: rest ->
  pop q message false wakes = Returned (queue_size q) head (with_queue q rest) /\
  1 <= queue_size q /\
  pop (with_cancelled q false) message false wakes =
    Returned (queue_size q) head (with_queue (with_cancelled q false) rest).
Proof.
  intros _ Hq. unfold pop. split; [| split].
  - apply pop_nonblocking_nonempty, Hq.
  - apply (queue_size_cons q head rest Hq).
  - apply (pop_nonblocking_nonempty (with_cancelled q false)), Hq.
Qed.

(** C9. [push] does not look at the cancellation flag: on a cancelled queue
    with room left it appends the message at the tail and returns the new
    count, and the same call on the queue with the flag down returns the
    same count and stores the same messages. *)
Theorem push_ignores_cancellation q message :
  m_cancelled q = true ->
  in_size_t (m_max_capacity q) ->
  queue_size q < m_max_capacity q ->
  m_queue (snd (push q message)) = m_queue q ++ [message] /\
  fst (push q message) = queue_size q + 1 /\
  fst (push q message) = queue_size (snd (push q message)) /\
  m_cancelled (snd (push q message)) = true /\
  fst (push (with_cancelled q false) message) = fst (push q message) /\
  m_queue (snd (push (with_cancelled q false) message)) =
    m_queue (snd (push q message)).
Proof.
  intros Hc Hcap Hlt.
  destruct (push_room q message Hcap Hlt) as (Hr & Hq & Hc' & _).
  destruct (push_room (with_cancelled q false) message Hcap Hlt)
    as (Hr2 & Hq2 & _).
  rewrite Hr, Hq, Hc', Hr2, Hq2. repeat split; try assumption.
  unfold queue_size. rewrite Hq, length_app. simpl. lia.
Qed.

Lemma pop_blocking_cancelled q message wakes :
  m_cancelled q = true -> pop q message true wakes = Returned 0 message q.
Proof.
  intros Hc. unfold pop. destruct wakes; simpl;
    rewrite (pop_turn_cancelled q message 0 Hc); reflexivity.
Qed.

Lemma pop_blocking_nonempty q message wakes head rest :
  m_cancelled q = false -> m_queue q = head :: rest ->
  pop q message true wakes = Returned (queue_size q) head (with_queue q rest).
Proof.
  intros Hc Hq. unfold pop. destruct wakes; simpl;
    rewrite (pop_turn_nonempty q message 0 head rest Hc Hq); reflexivity.
Qed.

(** ** Critical sections *)

Lemma pop_turn_waits q message r :
  pop_turn q message 0 = inr r ->
  r = 0 /\ m_cancelled q = false /\ m_queue q = [].
Proof.
  unfold pop_turn. destruct (m_cancelled q); [discriminate |].
  destruct (Z.ltb_spec 0 (queue_size q)) as [H | H]; [discriminate |].
  intros E. injection E as <-.
  pose proof (queue_size_nonneg q) as Hge.
  assert (Hz : queue_size q = 0) by lia.
  repeat split; [exact Hz | apply queue_size_zero, Hz].
Qed.

(** What a critical section does to the three fields the claims are
    about: the capacity stays, the flag is never lowered, and the stored
    messages lose their head, gain a last element or stay. *)
Lemma critical_section_fields q c :
  m_max_capacity (interfere q c) = m_max_capacity q /\
  (m_cancelled q = true -> m_cancelled (interfere q c) = true) /\
  (m_queue (interfere q c) = m_queue q \/
   m_queue (interfere q c) = tl (m_queue q) \/
   (queue_size q < m_max_capacity q /\
    exists message,
      c = CallPush message /\
      m_queue (interfere q c) = m_queue q ++ [message])).
Proof.
  unfold interfere. destruct c as [message | message [|] | | |]; simpl.
  - destruct (push q message) as [ret q'] eqn:E.
    pose proof (push_fields q message) as [Hc Hm].
    pose proof (push_queue q message) as Hq. rewrite E in Hc, Hm, Hq.
    simpl in *. repeat split; [exact Hm | congruence |].
    destruct (Z.ltb_spec (queue_size q) (m_max_capacity q)).
    + right; right. split; [assumption |].
      exists message. split; [reflexivity | exact Hq].
    + left. exact Hq.
  - unfold pop_turn. destruct (m_cancelled q) eqn:Hc; simpl.
    + repeat split; auto.
    + destruct (0 <? queue_size q); simpl; repeat split; auto; discriminate.
  - unfold pop_nonblocking. destruct (0 <? queue_size q); simpl;
      repeat split; auto.
  - repeat split; auto.
  - repeat split; auto.
  - repeat split; auto.
Qed.

Lemma interfere_push q message :
  interfere q (CallPush message) = snd (push q message).
Proof. unfold interfere. simpl. destruct (push q message); reflexivity. Qed.

Lemma interference_app q w1 w2 :
  interference q (w1 ++ w2) = interference (interference q w1) w2.
Proof. unfold interference. apply fold_left_app. Qed.

(** A property of queues that every critical section keeps is kept by any
    number of them. *)
Lemma interference_keeps (P : t IMessagePtr -> Prop) :
  (forall q c, P q -> P (interfere q c)) ->
  forall w q, P q -> P (interference q w).
Proof.
  intros Hstep w. induction w as [| c w IH]; intros q Hq; simpl.
  - exact Hq.
  - apply IH, Hstep, Hq.
Qed.

(** A blocking [pop] is made of critical sections: when it returns, its
    answer is the answer of a critical section taken after the sections
    other threads ran during its first [n] waits; while it sleeps, only
    those threads have acted. *)
Lemma pop_blocking_linearised wakes : forall q message,
  match pop_blocking wakes q message 0 with
  | Returned ret message' q' =>
      exists n,
        critical_section (interference q (concat (firstn n wakes)))
          (CallPop message true) = (PopRet ret message', q')
  | Suspended message' q' =>
      message' = message /\ q' = interference q (concat wakes)
  end.
Proof.
  induction wakes as [| w wakes IH]; intros q message; simpl.
  - destruct (pop_turn q message 0) as [[[ret m] q'] | r] eqn:E.
    + exists 0%nat. simpl. rewrite E. reflexivity.
    + split; reflexivity.
  - destruct (pop_turn q message 0) as [[[ret m] q'] | r] eqn:E.
    + exists 0%nat. simpl. rewrite E. reflexivity.
    + destruct (pop_turn_waits q message r E) as (-> & _ & _).
      destruct (m_cancelled (interference q w)) eqn:Hc.
      * exists 1%nat. simpl. rewrite app_nil_r.
        rewrite (pop_turn_cancelled _ message 0 Hc). reflexivity.
      * specialize (IH (interference q w) message).
        destruct (pop_blocking wakes (interference q w) message 0)
          as [ret m q' | m q'].
        -- destruct IH as [n Hn]. exists (S n). simpl.
           rewrite interference_app. exact Hn.
        -- destruct IH as [-> ->]. split; [reflexivity |].
           rewrite interference_app. reflexivity.
Qed.

Lemma pop_linearised q message blocking wakes :
  exists cs, queue_after (pop q message blocking wakes) = interference q cs.
Proof.
  unfold pop. destruct blocking.
  - pose proof (pop_blocking_linearised wakes q message) as H.
    destruct (pop_blocking wakes q message 0) as [ret m q' | m q']; simpl.
    + destruct H as [n Hn].
      exists (concat (firstn n wakes) ++ [CallPop message true]).
      rewrite interference_app. simpl. unfold interfere at 1.
      rewrite Hn. reflexivity.
    + destruct H as [_ ->]. exists (concat wakes). reflexivity.
  - exists [CallPop message false]. simpl. unfold interfere. simpl.
    destruct (pop_nonblocking q message); reflexivity.
Qed.

(** C2, as the code has it.  In the blocking [pop] the cancellation check
    comes first: on a cancelled queue the call returns 0 and touches
    neither the out-parameter nor the queue, empty or not; on a queue that
    is not cancelled and not empty it removes the head and returns it with
    the count before the removal; and it returns 0 only when the flag is
    set, then with the out-parameter untouched and the queue as the other
    threads left it. *)
Theorem pop_blocking_checks_cancellation_first q message wakes :
  (m_cancelled q = true -> pop q message true wakes = Returned 0 message q) /\
  (m_cancelled q = false ->
   forall head rest, m_queue q = head :: rest ->
     pop q message true wakes =
       Returned (queue_size q) head (with_queue q rest) /\
     1 <= queue_size q) /\
  (forall message' q',
     pop q message true wakes = Returned 0 message' q' ->
     m_cancelled q' = true /\
     message' = message /\
     exists n, q' = interference q (concat (firstn n wakes))).
Proof.
  split; [| split].
  - apply pop_blocking_cancelled.
  - intros Hc head rest Hq. split.
    + apply pop_blocking_nonempty; assumption.
    + apply (queue_size_cons q head rest Hq).
  - intros message' q' E. unfold pop in E.
    pose proof (pop_blocking_linearised wakes q message) as L.
    rewrite E in L. destruct L as [n Hn]. simpl in Hn.
    set (q1 := interference q (concat (firstn n wakes))) in *.
    destruct (m_cancelled q1) eqn:Hc.
    + rewrite (pop_turn_cancelled q1 message 0 Hc) in Hn.
      injection Hn as <- <-. repeat split; [exact Hc |].
      exists n. reflexivity.
    + destruct (m_queue q1) as [| head rest] eqn:Hq.
      * rewrite (pop_turn_empty q1 message 0 Hc Hq) in Hn. discriminate.
      * rewrite (pop_turn_nonempty q1 message 0 head rest Hc Hq) in Hn.
        pose proof (queue_size_cons q1 head rest Hq).
        injection Hn as Hsize _ _. lia.
Qed.

(** So whole calls keep what critical sections keep. *)
Lemma perform_keeps (P : t IMessagePtr -> Prop) :
  (forall q c, P q -> P (interfere q c)) ->
  forall q o, P q -> P (perform q o).
Proof.
  intros Hstep q [c wakes] Hq.
  destruct c as [message | message blocking | | |]; simpl;
    try (apply Hstep, Hq).
  destruct (pop_linearised q message blocking wakes) as [cs ->].
  apply interference_keeps; assumption.
Qed.

Lemma perform_all_keeps (P : t IMessagePtr -> Prop) :
  (forall q c, P q -> P (interfere q c)) ->
  forall os q, P q -> P (perform_all q os).
Proof.
  intros Hstep os. induction os as [| o os IH]; intros q Hq; simpl.
  - exact Hq.
  - apply IH, perform_keeps; assumption.
Qed.

(** ** Cancellation *)

Lemma interfere_stays_cancelled q c :
  m_cancelled q = true -> m_cancelled (interfere q c) = true.
Proof. apply critical_section_fields. Qed.

(** C4. Once [cancel] has run the queue stays cancelled: whatever calls
    follow, in whatever number and with whatever wake-ups, [is_cancelled]
    answers true, and a blocking [pop] returns 0 at once, without waiting
    and without touching its out-parameter or the queue. *)
Theorem cancel_is_final q os :
  is_cancelled (perform_all (cancel q) os) = true /\
  forall message wakes,
    pop (perform_all (cancel q) os) message true wakes =
      Returned 0 message (perform_all (cancel q) os).
Proof.
  assert (H : m_cancelled (perform_all (cancel q) os) = true).
  { apply (perform_all_keeps (fun q => m_cancelled q = true)).
    - intros q0 c. apply interfere_stays_cancelled.
    - reflexivity. }
  split; [exact H |].
  intros message wakes.
  apply pop_blocking_cancelled. exact H.
Qed.

(** X15. A consumer asleep in [m_cond.wait] that wakes after another
    thread has cancelled the queue returns 0 and leaves its out-parameter
    alone, whatever else the other threads did meanwhile, pushes
    included: their messages stay in the queue. *)
Lemma cancel_releases_waiter q message w1 w2 wakes :
  m_cancelled q = false ->
  m_queue q = [] ->
  pop q message true ((w1 ++ CallCancel :: w2) :: wakes) =
    Returned 0 message (interference q (w1 ++ CallCancel :: w2)).
Proof.
  intros Hc Hq. unfold pop. simpl.
  rewrite (pop_turn_empty q message 0 Hc Hq).
  assert (H : m_cancelled (interference q (w1 ++ CallCancel :: w2)) = true).
  { rewrite interference_app. simpl.
    apply (interference_keeps (fun q => m_cancelled q = true)).
    - intros q0 c. apply interfere_stays_cancelled.
    - reflexivity. }
  rewrite H. reflexivity.
Qed.

(** ** The capacity invariant *)

Lemma interfere_keeps_capacity_inv q c :
  capacity_inv q -> capacity_inv (interfere q c).
Proof.
  unfold capacity_inv. intros [Hlo Hhi].
  destruct (critical_section_fields q c) as (Hm & _ & Hq).
  unfold queue_size in *. rewrite Hm.
  destruct Hq as [-> | [-> | [Hlt [message [_ ->]]]]].
  - lia.
  - destruct (m_queue q); simpl in *; lia.
  - rewrite length_app. simpl. lia.
Qed.

(** C7. A queue created with a [size_t] capacity satisfies
    [0 <= length <= m_max_capacity], and [push], [pop] in both modes and
    with any wake-ups, and [cancel] keep it ([size] and [is_cancelled]
    only read); so it holds after any calls on a created queue, and a
    push never leaves more than [m_max_capacity] messages. *)
Theorem capacity_invariant max_capacity :
  in_size_t max_capacity ->
  capacity_inv (create (IMessagePtr := IMessagePtr) max_capacity) /\
  (forall q, capacity_inv q ->
     (forall message,
        capacity_inv (snd (push q message)) /\
        queue_size (snd (push q message)) <= m_max_capacity q) /\
     (forall message blocking wakes,
        capacity_inv (queue_after (pop q message blocking wakes))) /\
     capacity_inv (cancel q) /\
     0 <= size q <= m_max_capacity q) /\
  (forall os : list (call IMessagePtr * list (list (call IMessagePtr))),
     capacity_inv (perform_all (create max_capacity) os)).
Proof.
  intros [Hlo Hhi].
  assert (Hinit : capacity_inv (create (IMessagePtr := IMessagePtr) max_capacity)).
  { unfold capacity_inv, queue_size, create. simpl. lia. }
  split; [exact Hinit |]. split.
  - intros q Hq.
    assert (Hpush : forall message, capacity_inv (snd (push q message))).
    { intros message. rewrite <- interfere_push.
      apply interfere_keeps_capacity_inv, Hq. }
    split; [| split; [| split]].
    + intros message. split; [apply Hpush |].
      destruct (Hpush message) as [_ H].
      destruct (push_fields q message) as [_ Hm]. rewrite Hm in H. exact H.
    + intros message blocking wakes.
      apply (perform_keeps capacity_inv interfere_keeps_capacity_inv q
               (CallPop message blocking, wakes) Hq).
    + apply (interfere_keeps_capacity_inv q CallCancel Hq).
    + exact Hq.
  - intros os.
    apply (perform_all_keeps capacity_inv interfere_keeps_capacity_inv).
    exact Hinit.
Qed.

(** ** First in, first out *)

Lemma critical_section_fifo q c :
  in_size_t (m_max_capacity q) ->
  m_queue q ++ pushed_by c (fst (critical_section q c)) =
    popped_by (fst (critical_section q c)) ++ m_queue (snd (critical_section q c)).
Proof.
  intros Hcap. destruct c as [message | message [|] | | |]; simpl;
    try (rewrite app_nil_r; reflexivity).
  - destruct (Z.ltb_spec (queue_size q) (m_max_capacity q)) as [Hlt | Hge].
    + destruct (push_room q message Hcap Hlt) as (Hr & Hq & _).
      destruct (push q message) as [ret q']. simpl in *.
      pose proof (queue_size_nonneg q).
      destruct (Z.ltb_spec 0 ret); [| lia]. congruence.
    + rewrite (push_full q message Hge). simpl. apply app_nil_r.
  - destruct (m_cancelled q) eqn:Hc.
    + rewrite (pop_turn_cancelled q message 0 Hc). simpl. apply app_nil_r.
    + destruct (m_queue q) as [| head rest] eqn:Hq.
      * rewrite (pop_turn_empty q message 0 Hc Hq). simpl. symmetry. exact Hq.
      * rewrite (pop_turn_nonempty q message 0 head rest Hc Hq). simpl.
        pose proof (queue_size_cons q head rest Hq).
        destruct (Z.ltb_spec 0 (queue_size q)); [| lia].
        rewrite app_nil_r. reflexivity.
  - destruct (m_queue q) as [| head rest] eqn:Hq.
    + rewrite (pop_nonblocking_empty q message Hq). simpl. symmetry. exact Hq.
    + rewrite (pop_nonblocking_nonempty q message head rest Hq). simpl.
      pose proof (queue_size_cons q head rest Hq).
      destruct (Z.ltb_spec 0 (queue_size q)); [| lia].
      rewrite app_nil_r. reflexivity.
Qed.

Lemma run_fifo_from (q0 : t IMessagePtr) cs : forall h,
  in_size_t (m_max_capacity (now h)) ->
  m_queue q0 ++ pushes h = pops h ++ m_queue (now h) ->
  let h' := fold_left record_section cs h in
  m_queue q0 ++ pushes h' = pops h' ++ m_queue (now h').
Proof.
  induction cs as [| c cs IH]; intros h Hcap Hh; simpl.
  - exact Hh.
  - apply IH.
    + unfold record_section.
      destruct (critical_section_fields (now h) c) as (Hm & _ & _).
      unfold interfere in Hm.
      destruct (critical_section (now h) c) as [a q']. simpl in *.
      rewrite Hm. exact Hcap.
    + unfold record_section.
      pose proof (critical_section_fifo (now h) c Hcap) as Hc.
      destruct (critical_section (now h) c) as [a q']. simpl in *.
      rewrite !app_assoc, Hh, <- !app_assoc. f_equal. exact Hc.
Qed.

(** C5. Take the critical sections of all threads in the order the mutex
    gives them.  The messages stored at the start followed by those of the
    successful pushes, in push order, are the messages of the successful
    pops, in pop order, followed by what is still stored: pops take the
    pushed messages from the front, one by one, in the order they went
    in.  On a queue that starts empty the popped messages are a prefix of
    the pushed ones. *)
Theorem fifo_order q cs :
  in_size_t (m_max_capacity q) ->
  m_queue q ++ pushes (run q cs) =
    pops (run q cs) ++ m_queue (now (run q cs)) /\
  (m_queue q = [] ->
   pushes (run q cs) = pops (run q cs) ++ m_queue (now (run q cs))).
Proof.
  intros Hcap.
  assert (H : m_queue q ++ pushes (run q cs) =
              pops (run q cs) ++ m_queue (now (run q cs))).
  { unfold run. apply (run_fifo_from q cs (mk_history q [] [])).
    - exact Hcap.
    - simpl. apply app_nil_r. }
  split; [exact H |]. intros E. rewrite E in H. exact H.
Qed.

End Facts.

End MessageQueuePosixFacts.

(** * Properties of [MessageQueueT<M>] *)

Module MessageQueueTFacts.

Import MessageQueueT.

Section Facts.

Variable type_id : Type.
Variable type_eq_dec : forall a b : type_id, {a = b} + {a <> b}.
Variable value : type_id -> Type.

Local Abbreviation Message := (Message type_id value).
Local Abbreviation queue M := (t type_id value M).
Local Abbreviation stores_impl M impl :=
  (Forall (holds_impl M) (MessageQueuePosix.m_queue impl)).

(** The cast of a handle to a [MessageImpl<M>] gives its address and its
    payload back. *)
Lemma dynamic_pointer_cast_impl M addr (m_payload : value M) :
  dynamic_pointer_cast type_eq_dec M (ptr addr (MessageImpl M m_payload)) =
    ptr addr m_payload.
Proof.
  unfold dynamic_pointer_cast.
  destruct (type_eq_dec M M) as [e | n]; [| contradiction].
  rewrite <- (eq_rect_eq_dec type_eq_dec). reflexivity.
Qed.

(** Once the untyped [pop] has handed over a [MessageImpl<M>], the typed
    one passes both [assert]s and copies the payload out. *)
Lemma pop_unboxes M (q : queue M) dst_message blocking wakes
    ret addr (m_payload : value M) impl :
  MessageQueuePosix.pop (m_impl q) nullptr blocking (map (map lower) wakes) =
    MessageQueuePosix.Returned ret (ptr addr (MessageImpl M m_payload)) impl ->
  0 < ret ->
  pop type_eq_dec q dst_message blocking wakes = Returned ret m_payload (mk impl).
Proof.
  intros Hpop Hret. unfold pop. rewrite Hpop.
  destruct (Z.ltb_spec 0 ret); [| lia].
  rewrite dynamic_pointer_cast_impl. simpl.
  rewrite Pos.eqb_refl. reflexivity.
Qed.

(** C6, as the code has it.  On a typed queue that is empty, has room, and
    is not cancelled or is popped without blocking, [push(v)] returns 1
    and the [pop] that follows returns 1 with a value equal to [v],
    leaving the queue empty. *)
Theorem push_pop_round_trip M (q : queue M) addr (v : value M)
    dst_message blocking wakes :
  MessageQueuePosix.m_queue (m_impl q) = [] ->
  size q < MessageQueuePosix.m_max_capacity (m_impl q) ->
  is_cancelled q = false \/ blocking = false ->
  fst (push q addr v) = 1 /\
  exists q',
    pop type_eq_dec (snd (push q addr v)) dst_message blocking wakes =
      Returned 1 v q' /\
    MessageQueuePosix.m_queue (m_impl q') = [].
Proof.
  intros Hq Hcap Hmode. destruct q as [impl]. simpl in *.
  unfold size, is_cancelled, MessageQueuePosix.size,
    MessageQueuePosix.is_cancelled in *. simpl in *.
  unfold push. simpl.
  set (h := ptr addr (MessageImpl M v) : Message).
  assert (Hpush : MessageQueuePosix.push impl h =
                  (1, MessageQueuePosix.notify
                        (MessageQueuePosix.push_back impl h) signal)).
  { unfold MessageQueuePosix.push.
    destruct (Z.ltb_spec (MessageQueuePosix.queue_size impl)
                (MessageQueuePosix.m_max_capacity impl)); [| lia].
    unfold MessageQueuePosix.queue_size. rewrite Hq. reflexivity. }
  rewrite Hpush. simpl. split; [reflexivity |].
  set (impl1 := MessageQueuePosix.notify
                  (MessageQueuePosix.push_back impl h) signal).
  assert (Hq1 : MessageQueuePosix.m_queue impl1 = [h]).
  { unfold impl1. simpl. rewrite Hq. reflexivity. }
  exists (mk (MessageQueuePosix.with_queue impl1 [])).
  split; [| reflexivity].
  apply (pop_unboxes M _ dst_message blocking wakes 1 addr v); [| lia]. simpl.
  assert (Hsize : MessageQueuePosix.queue_size impl1 = 1).
  { unfold MessageQueuePosix.queue_size. rewrite Hq1. reflexivity. }
  rewrite <- Hsize.
  destruct blocking.
  - apply MessageQueuePosixFacts.pop_blocking_nonempty; [| exact Hq1].
    destruct Hmode as [Hc | Hb]; [exact Hc | discriminate].
  - apply MessageQueuePosixFacts.pop_nonblocking_nonempty. exact Hq1.
Qed.

(** ** Type recovery *)

Lemma lower_keeps_impl M impl (c : call type_id value M) :
  stores_impl M impl ->
  stores_impl M (MessageQueuePosix.interfere impl (lower c)).
Proof.
  intros H.
  destruct (MessageQueuePosixFacts.critical_section_fields impl (lower c))
    as (_ & _ & [-> | [-> | [_ [message [Hc ->]]]]]).
  - exact H.
  - destruct (MessageQueuePosix.m_queue impl); [exact H |].
    inversion H; assumption.
  - apply Forall_app. split; [exact H |].
    constructor; [| constructor].
    destruct c; simpl in Hc; try discriminate.
    injection Hc as <-. eexists _, _. reflexivity.
Qed.

Lemma lowered_interference_keeps_impl M (w : list (call type_id value M)) :
  forall impl,
    stores_impl M impl ->
    stores_impl M (MessageQueuePosix.interference impl (map lower w)).
Proof.
  induction w as [| c w IH]; intros impl H; simpl.
  - exact H.
  - apply IH, lower_keeps_impl, H.
Qed.

Lemma concat_firstn_lower M n (wakes : list (list (call type_id value M))) :
  concat (firstn n (map (map lower) wakes)) =
    map lower (concat (firstn n wakes)).
Proof. rewrite firstn_map, concat_map. reflexivity. Qed.

(** A critical section of [pop] on a queue of [MessageImpl<M>] holders
    hands one of them over whenever it returns a count above zero. *)
Lemma section_pop_hands_impl M (impl : MessageQueuePosix.t Message)
    message blocking ret h impl' :
  stores_impl M impl ->
  MessageQueuePosix.critical_section impl
    (MessageQueuePosix.CallPop message blocking) =
    (MessageQueuePosix.PopRet ret h, impl') ->
  (ret = 0 \/ 0 < ret /\ holds_impl M h) /\ stores_impl M impl'.
Proof.
  intros H. simpl.
  destruct (MessageQueuePosix.m_queue impl) as [| head rest] eqn:Hq.
  - destruct blocking.
    + destruct (MessageQueuePosix.m_cancelled impl) eqn:Hc.
      * rewrite (MessageQueuePosixFacts.pop_turn_cancelled impl message 0 Hc).
        intros E. injection E as <- <- <-. split; [left; reflexivity | rewrite Hq; exact H].
      * rewrite (MessageQueuePosixFacts.pop_turn_empty impl message 0 Hc Hq).
        discriminate.
    + rewrite (MessageQueuePosixFacts.pop_nonblocking_empty impl message Hq).
      intros E. injection E as <- <- <-. split; [left; reflexivity | rewrite Hq; exact H].
  - pose proof (MessageQueuePosixFacts.queue_size_cons impl head rest Hq) as H1.
    inversion H as [| x l Hhead Hrest]; subst.
    destruct blocking.
    + destruct (MessageQueuePosix.m_cancelled impl) eqn:Hc.
      * rewrite (MessageQueuePosixFacts.pop_turn_cancelled impl message 0 Hc).
        intros E. injection E as <- <- <-.
        split; [left; reflexivity | rewrite Hq; exact H].
      * rewrite (MessageQueuePosixFacts.pop_turn_nonempty
                   impl message 0 head rest Hc Hq).
        intros E. injection E as <- <- <-.
        split; [right; split; [lia | exact Hhead] | exact Hrest].
    + rewrite (MessageQueuePosixFacts.pop_nonblocking_nonempty
                 impl message head rest Hq).
      intros E. injection E as <- <- <-.
      split; [right; split; [lia | exact Hhead] | exact Hrest].
Qed.

Lemma untyped_pop_hands_impl M impl message blocking
    (wakes : list (list (call type_id value M))) :
  stores_impl M impl ->
  match MessageQueuePosix.pop impl message blocking (map (map lower) wakes) with
  | MessageQueuePosix.Returned ret h impl' =>
      (ret = 0 \/ 0 < ret /\ holds_impl M h) /\ stores_impl M impl'
  | MessageQueuePosix.Suspended _ impl' => stores_impl M impl'
  end.
Proof.
  intros H. unfold MessageQueuePosix.pop. destruct blocking.
  - pose proof (MessageQueuePosixFacts.pop_blocking_linearised
                  (map (map lower) wakes) impl message) as L.
    destruct (MessageQueuePosix.pop_blocking (map (map lower) wakes) impl message 0)
      as [ret h impl' | m impl'].
    + destruct L as [n Hn]. rewrite concat_firstn_lower in Hn.
      apply (section_pop_hands_impl M _ message true ret h impl'
               (lowered_interference_keeps_impl M _ impl H) Hn).
    + destruct L as [_ ->]. rewrite <- concat_map.
      apply lowered_interference_keeps_impl, H.
  - pose proof (section_pop_hands_impl M impl message false) as S.
    simpl in S.
    destruct (MessageQueuePosix.pop_nonblocking impl message)
      as [ret h impl' | m impl'] eqn:E.
    + apply S; [exact H | reflexivity].
    + unfold MessageQueuePosix.pop_nonblocking in E.
      destruct (0 <? MessageQueuePosix.queue_size impl); discriminate.
Qed.

(** C8. On a [MessageQueueT<M>] that has only been used through its own
    member functions, by any threads and in any order, a [pop] never trips
    one of its two [assert]s nor goes through a null [message]: whenever
    the untyped [pop] returns a count above zero, the handle it hands over
    is not null and refers to a [MessageImpl<M>]. *)
Theorem type_recovery_succeeds M max_capacity (cs : list (call type_id value M))
    dst_message blocking wakes :
  went_well
    (pop type_eq_dec (after (create M max_capacity) cs)
       dst_message blocking wakes) = true /\
  match MessageQueuePosix.pop (m_impl (after (create M max_capacity) cs))
          nullptr blocking (map (map lower) wakes) with
  | MessageQueuePosix.Returned ret abstract_message _ =>
      ret = 0 \/
      0 < ret /\ get abstract_message <> 0%N /\ holds_impl M abstract_message
  | MessageQueuePosix.Suspended _ _ => True
  end.
Proof.
  set (q := after (create M max_capacity) cs).
  assert (Hq : stores_impl M (m_impl q)).
  { unfold q, after. simpl. apply lowered_interference_keeps_impl.
    simpl. constructor. }
  pose proof (untyped_pop_hands_impl M (m_impl q) nullptr blocking wakes Hq) as H.
  destruct (MessageQueuePosix.pop (m_impl q) nullptr blocking (map (map lower) wakes))
    as [ret h impl' | m impl'] eqn:E.
  - destruct H as [[-> | [Hret (addr & v & ->)]] _].
    + split; [| left; reflexivity].
      unfold pop. rewrite E. reflexivity.
    + split.
      * rewrite (pop_unboxes M q dst_message blocking wakes ret addr v impl' E Hret).
        reflexivity.
      * right. split; [exact Hret |]. split; [discriminate |].
        eexists _, _. reflexivity.
  - split; [| exact I]. unfold pop. rewrite E. reflexivity.
Qed.

End Facts.

End MessageQueueTFacts.

(** * The properties at work *)

Module ExamplesFacts.

Import Examples.

Ltac size_t_facts :=
  unfold MessageQueuePosix.well_formed, MessageQueuePosix.capacity_inv,
    in_size_t;
  repeat split; vm_compute; discriminate.

(** Capacity 2: "a" and "b" go in, "c" is turned away, and "a" and "b"
    come out in that order. *)
Example three_pushes_three_pops :
  MessageQueuePosix.push (MessageQueuePosix.create 2) a
    = (1, holds_a) /\
  fst (MessageQueuePosix.push holds_a b) = 2 /\
  MessageQueuePosix.push holds_a_b c = (0, holds_a_b) /\
  exists q1 q2,
    MessageQueuePosix.pop holds_a_b z false [] =
      MessageQueuePosix.Returned 2 a q1 /\
    MessageQueuePosix.pop q1 z false [] = MessageQueuePosix.Returned 1 b q2 /\
    MessageQueuePosix.pop q2 z false [] = MessageQueuePosix.Returned 0 z q2.
Proof.
  repeat split. eexists _, _. repeat split.
Qed.

(** [push] on the full queue, and on the queue with room. *)
(** One consumer asleep on an empty queue of the default capacity: a push
    by another thread hands it the message, a cancel sends it back with
    nothing, and with no wake-up it stays asleep. *)
Example blocked_consumer :
  MessageQueuePosix.pop (MessageQueuePosix.create SIZE_MAX) z true
    [[MessageQueuePosix.CallPush a]] =
  MessageQueuePosix.Returned 1 a
    (MessageQueuePosix.mk SIZE_MAX false [signal] []) /\
  MessageQueuePosix.pop (MessageQueuePosix.create SIZE_MAX) z true
    [[]; [MessageQueuePosix.CallCancel]] =
  MessageQueuePosix.Returned 0 z
    (MessageQueuePosix.mk SIZE_MAX true [broadcast] []) /\
  MessageQueuePosix.pop (MessageQueuePosix.create SIZE_MAX) z true [[]] =
  MessageQueuePosix.Suspended z (MessageQueuePosix.create SIZE_MAX).
Proof. repeat split. Qed.

Lemma push_zero_iff_at_capacity_witness :
  MessageQueuePosix.well_formed holds_a_b /\
  MessageQueuePosix.push holds_a_b c = (0, holds_a_b) /\
  MessageQueuePosix.well_formed holds_a /\
  fst (MessageQueuePosix.push holds_a b) = 2.
Proof.
  assert (H2 : MessageQueuePosix.well_formed holds_a_b) by size_t_facts.
  assert (H1 : MessageQueuePosix.well_formed holds_a) by size_t_facts.
  split; [exact H2 |]. split; [| split; [exact H1 |]].
  - apply (MessageQueuePosixFacts.push_zero_iff_at_capacity holds_a_b c H2).
    reflexivity.
  - apply (MessageQueuePosixFacts.push_zero_iff_at_capacity holds_a b H1).
    discriminate.
Defined.

(** The blocking [pop] on a cancelled queue that holds "a": the claim as
    written wants 1 and "a" back; the call returns 0, and "a" stays in
    the queue. *)
Lemma pop_blocking_cancelled_nonempty_counterexample :
  MessageQueuePosix.m_queue cancelled_holds_a = [a] /\
  MessageQueuePosix.pop cancelled_holds_a z true [] =
    MessageQueuePosix.Returned 0 z cancelled_holds_a /\
  MessageQueuePosix.pop cancelled_holds_a z true [] <>
    MessageQueuePosix.Returned 1 a
      (MessageQueuePosix.with_queue cancelled_holds_a []).
Proof.
  split; [reflexivity |]. split; [reflexivity | discriminate].
Qed.

Lemma pop_blocking_checks_cancellation_first_witness :
  (MessageQueuePosix.m_cancelled cancelled_holds_a = true /\
   MessageQueuePosix.pop cancelled_holds_a z true [] =
     MessageQueuePosix.Returned 0 z cancelled_holds_a) /\
  (MessageQueuePosix.m_cancelled holds_a_b = false /\
   MessageQueuePosix.m_queue holds_a_b = [a; b] /\
   MessageQueuePosix.pop holds_a_b z true [] =
     MessageQueuePosix.Returned 2 a
       (MessageQueuePosix.with_queue holds_a_b [b])) /\
  (MessageQueuePosix.pop (MessageQueuePosix.create 2) z true
     [[]; [MessageQueuePosix.CallCancel]] =
     MessageQueuePosix.Returned 0 z cancelled_empty /\
   MessageQueuePosix.m_cancelled cancelled_empty = true).
Proof.
  split; [| split].
  - split; [reflexivity |].
    apply (MessageQueuePosixFacts.pop_blocking_checks_cancellation_first
             cancelled_holds_a z []).
    reflexivity.
  - split; [reflexivity |]. split; [reflexivity |].
    apply (MessageQueuePosixFacts.pop_blocking_checks_cancellation_first
             holds_a_b z []); reflexivity.
  - split; [reflexivity |].
    destruct (MessageQueuePosixFacts.pop_blocking_checks_cancellation_first
                (MessageQueuePosix.create 2) z
                [[]; [MessageQueuePosix.CallCancel]]) as (_ & _ & H).
    destruct (H z cancelled_empty eq_refl) as (Hc & _ & _). exact Hc.
Defined.

Lemma fifo_order_witness :
  in_size_t
    (MessageQueuePosix.m_max_capacity
       (MessageQueuePosix.create (IMessagePtr := String.string) 2)) /\
  MessageQueuePosix.pushes
    (MessageQueuePosix.run (MessageQueuePosix.create 2) three_in_three_out) =
  MessageQueuePosix.pops
    (MessageQueuePosix.run (MessageQueuePosix.create 2) three_in_three_out) ++
  MessageQueuePosix.m_queue
    (MessageQueuePosix.now
       (MessageQueuePosix.run (MessageQueuePosix.create 2) three_in_three_out)).
Proof.
  assert (H : in_size_t
                (MessageQueuePosix.m_max_capacity
                   (MessageQueuePosix.create (IMessagePtr := String.string) 2)))
    by size_t_facts.
  split; [exact H |].
  apply (MessageQueuePosixFacts.fifo_order
           (MessageQueuePosix.create 2) three_in_three_out H).
  reflexivity.
Defined.

Lemma capacity_invariant_witness :
  in_size_t 2 /\
  MessageQueuePosix.capacity_inv
    (MessageQueuePosix.perform_all (MessageQueuePosix.create 2)
       [waits_for_a; (MessageQueuePosix.CallPush b, [])]).
Proof.
  assert (H : in_size_t 2) by size_t_facts.
  split; [exact H |].
  apply (MessageQueuePosixFacts.capacity_invariant 2 H).
Defined.

Lemma push_ignores_cancellation_witness :
  MessageQueuePosix.m_cancelled cancelled_empty = true /\
  in_size_t (MessageQueuePosix.m_max_capacity cancelled_empty) /\
  MessageQueuePosix.queue_size cancelled_empty <
    MessageQueuePosix.m_max_capacity cancelled_empty /\
  MessageQueuePosix.m_queue (snd (MessageQueuePosix.push cancelled_empty a)) =
    [a] /\
  fst (MessageQueuePosix.push cancelled_empty a) = 1.
Proof.
  assert (H : in_size_t (MessageQueuePosix.m_max_capacity cancelled_empty))
    by size_t_facts.
  assert (Hlt : MessageQueuePosix.queue_size cancelled_empty <
                MessageQueuePosix.m_max_capacity cancelled_empty)
    by reflexivity.
  split; [reflexivity |]. split; [exact H |]. split; [exact Hlt |].
  destruct (MessageQueuePosixFacts.push_ignores_cancellation
              cancelled_empty a eq_refl H Hlt) as (Hq & Hr & _).
  split; [exact Hq | exact Hr].
Defined.

Lemma pop_nonblocking_ignores_cancellation_witness :
  MessageQueuePosix.m_cancelled cancelled_holds_a = true /\
  MessageQueuePosix.m_queue cancelled_holds_a = [a] /\
  MessageQueuePosix.pop cancelled_holds_a z false [] =
    MessageQueuePosix.Returned 1 a
      (MessageQueuePosix.with_queue cancelled_holds_a []).
Proof.
  split; [reflexivity |]. split; [reflexivity |].
  apply (MessageQueuePosixFacts.pop_nonblocking_ignores_cancellation
           cancelled_holds_a z [] a [] eq_refl eq_refl).
Defined.

(** [push(7)] and a blocking [pop] on a cancelled [MessageQueueT<int>]: the
    queue is empty and has room, the push returns 1, and yet the pop
    returns 0 and leaves the 0 that was in [dst_message]. *)
Lemma push_pop_round_trip_cancelled_counterexample :
  MessageQueuePosix.m_queue (MessageQueueT.m_impl cancelled_int_queue) = [] /\
  MessageQueueT.size cancelled_int_queue <
    MessageQueuePosix.m_max_capacity (MessageQueueT.m_impl cancelled_int_queue) /\
  fst (MessageQueueT.push cancelled_int_queue 1%positive 7) = 1 /\
  MessageQueueT.pop example_type_eq_dec
    (snd (MessageQueueT.push cancelled_int_queue 1%positive 7)) 0 true [] =
  MessageQueueT.Returned (M := TInt) 0 0
    (snd (MessageQueueT.push cancelled_int_queue 1%positive 7)) /\
  forall q',
    MessageQueueT.pop example_type_eq_dec
      (snd (MessageQueueT.push cancelled_int_queue 1%positive 7)) 0 true [] <>
    MessageQueueT.Returned (M := TInt) 1 7 q'.
Proof.
  repeat split. discriminate.
Qed.

Lemma push_pop_round_trip_witness :
  MessageQueuePosix.m_queue (MessageQueueT.m_impl int_queue) = [] /\
  MessageQueueT.size int_queue <
    MessageQueuePosix.m_max_capacity (MessageQueueT.m_impl int_queue) /\
  MessageQueueT.is_cancelled int_queue = false /\
  fst (MessageQueueT.push int_queue 1%positive 7) = 1 /\
  exists q',
    MessageQueueT.pop example_type_eq_dec
      (snd (MessageQueueT.push int_queue 1%positive 7)) 0 true [] =
    MessageQueueT.Returned (M := TInt) 1 7 q' /\
    MessageQueuePosix.m_queue (MessageQueueT.m_impl q') = [].
Proof.
  split; [reflexivity |]. split; [reflexivity |]. split; [reflexivity |].
  apply (MessageQueueTFacts.push_pop_round_trip
           example_type example_type_eq_dec example_value TInt
           int_queue 1%positive 7 0 true [] eq_refl eq_refl (or_introl eq_refl)).
Defined.

End ExamplesFacts.

(** * Using [MessageQueuePosix] *)

Module MessageQueuePosixUse.

Import MessageQueuePosix MessageQueuePosixFacts.

Section Use.

Context {IMessagePtr : Type}.

Implicit Types (q : t IMessagePtr) (message : IMessagePtr).
Implicit Types (wakes : list (list (call IMessagePtr))).
Implicit Types (h : history IMessagePtr).

(** ** Notifications *)

(** X1. [push] signals the condition variable exactly when it stores a
    message into an empty queue; a push into a queue that already holds
    messages, or one that is turned away, notifies nobody. *)
Theorem push_signals_exactly_on_empty q message :
  in_size_t (m_max_capacity q) ->
  m_cond (snd (push q message)) =
    if (queue_size q =? 0) && (0 <? m_max_capacity q)
    then m_cond q ++ [signal]
    else m_cond q.
Proof.
  intros Hcap. pose proof (queue_size_nonneg q) as Hge. unfold push.
  destruct (Z.ltb_spec (queue_size q) (m_max_capacity q)) as [Hlt | Hle].
  - rewrite size_t_wrap_small by (unfold in_size_t in *; lia).
    destruct (Z.eqb_spec (queue_size q) 0) as [E | N].
    + rewrite E. simpl.
      destruct (Z.ltb_spec 0 (m_max_capacity q)); [reflexivity | lia].
    + destruct (Z.eqb_spec (queue_size q + 1) 1); [lia | reflexivity].
  - destruct (Z.eqb_spec (queue_size q) 0) as [E | N]; [| reflexivity].
    destruct (Z.ltb_spec 0 (m_max_capacity q)); [lia | reflexivity].
Qed.

(** ** Sequences of calls *)

Lemma record_push h message :
  record_section h (CallPush message) =
    mk_history (snd (push (now h) message))
      (pushes h ++ if 0 <? fst (push (now h) message) then [message] else [])
      (pops h).
Proof.
  unfold record_section. simpl. destruct (push (now h) message) as [ret q'].
  simpl. rewrite app_nil_r. reflexivity.
Qed.

Lemma record_pop_nonblocking h message :
  record_section h (CallPop message false) =
    mk_history (with_queue (now h) (tl (m_queue (now h))))
      (pushes h)
      (pops h ++ firstn 1 (m_queue (now h))).
Proof.
  unfold record_section. simpl.
  destruct (m_queue (now h)) as [| head rest] eqn:Hq.
  - rewrite (pop_nonblocking_empty (now h) message Hq). simpl.
    rewrite !app_nil_r. f_equal.
    destruct (now h); unfold with_queue; simpl in *. rewrite Hq. reflexivity.
  - rewrite (pop_nonblocking_nonempty (now h) message head rest Hq). simpl.
    pose proof (queue_size_cons (now h) head rest Hq).
    destruct (Z.ltb_spec 0 (queue_size (now h))); [| lia].
    rewrite app_nil_r. reflexivity.
Qed.

Lemma drain_from (ms : list IMessagePtr) : forall h,
  let h' := fold_left record_section (map (fun m => CallPop m false) ms) h in
  pops h' = pops h ++ firstn (length ms) (m_queue (now h)) /\
  m_queue (now h') = skipn (length ms) (m_queue (now h)) /\
  pushes h' = pushes h /\
  m_cancelled (now h') = m_cancelled (now h) /\
  m_max_capacity (now h') = m_max_capacity (now h).
Proof.
  induction ms as [| m ms IH]; intros h; simpl.
  - rewrite app_nil_r. repeat split.
  - specialize (IH (record_section h (CallPop m false))).
    rewrite record_pop_nonblocking in *. simpl in IH. simpl.
    destruct IH as (Hp & Hq & Hs & Hc & Hm).
    rewrite Hp, Hq, Hs, Hc, Hm.
    destruct (m_queue (now h)) as [| head rest]; simpl.
    + rewrite firstn_nil, skipn_nil, !app_nil_r. repeat split.
    + rewrite <- app_assoc. repeat split.
Qed.

(** X2. Non-blocking pops drain a queue from the front, cancelled or not:
    [n] of them in a row return the first [n] stored messages in the order
    they are stored (all of them when fewer are stored), leave the others,
    and change neither the flag nor the capacity. *)
Theorem nonblocking_pops_drain_in_order q (ms : list IMessagePtr) :
  let h := run q (map (fun m => CallPop m false) ms) in
  pops h = firstn (length ms) (m_queue q) /\
  m_queue (now h) = skipn (length ms) (m_queue q) /\
  pushes h = [] /\
  m_cancelled (now h) = m_cancelled q /\
  m_max_capacity (now h) = m_max_capacity q.
Proof.
  unfold run. apply (drain_from ms (mk_history q [] [])).
Qed.

Lemma fill_from (ms : list IMessagePtr) : forall h,
  in_size_t (m_max_capacity (now h)) ->
  let k := Z.to_nat (m_max_capacity (now h) - queue_size (now h)) in
  let h' := fold_left record_section (map CallPush ms) h in
  pushes h' = pushes h ++ firstn k ms /\
  m_queue (now h') = m_queue (now h) ++ firstn k ms /\
  pops h' = pops h.
Proof.
  induction ms as [| m ms IH]; intros h Hcap; cbv zeta; cbn [map fold_left].
  - rewrite firstn_nil, !app_nil_r. repeat split.
  - rewrite record_push.
    match goal with |- context [fold_left _ _ ?H] => set (h1 := H) end.
    specialize (IH h1). cbv zeta in IH.
    pose proof (queue_size_nonneg (now h)) as Hge.
    destruct (Z.ltb_spec (queue_size (now h)) (m_max_capacity (now h)))
      as [Hlt | Hle].
    + destruct (push_room (now h) m Hcap Hlt) as (Hr & Hq & _ & Hm).
      assert (E1 : m_max_capacity (now h1) = m_max_capacity (now h)) by exact Hm.
      assert (E3 : m_queue (now h1) = m_queue (now h) ++ [m]) by exact Hq.
      assert (E2 : queue_size (now h1) = queue_size (now h) + 1).
      { unfold queue_size. rewrite E3, length_app. simpl. lia. }
      assert (E4 : pushes h1 = pushes h ++ [m]).
      { unfold h1. simpl. rewrite Hr.
        destruct (Z.ltb_spec 0 (queue_size (now h) + 1)); [reflexivity | lia]. }
      assert (E5 : pops h1 = pops h) by reflexivity.
      rewrite E1, E2, E3, E4, E5 in IH.
      destruct (IH Hcap) as (Hp & Hs & Ho).
      replace (Z.to_nat (m_max_capacity (now h) - queue_size (now h)))
        with (S (Z.to_nat (m_max_capacity (now h) - (queue_size (now h) + 1))))
        by lia.
      rewrite Hp, Hs, Ho, <- !app_assoc. repeat split.
    + assert (E0 : h1 = mk_history (now h) (pushes h) (pops h)).
      { unfold h1. rewrite (push_full (now h) m Hle). simpl.
        rewrite app_nil_r. reflexivity. }
      clearbody h1. subst h1. simpl in IH.
      replace (Z.to_nat (m_max_capacity (now h) - queue_size (now h)))
        with 0%nat in * by lia.
      simpl in *. apply IH, Hcap.
Qed.

(** X3. Pushes in a row fill the room that is left and no more: of the
    messages pushed, the first [m_max_capacity - count] are stored at the
    tail in the order of the pushes, and each later push returns 0 and
    stores nothing. *)
Theorem pushes_fill_the_room_left q (ms : list IMessagePtr) :
  in_size_t (m_max_capacity q) ->
  let k := Z.to_nat (m_max_capacity q - queue_size q) in
  let h := run q (map CallPush ms) in
  pushes h = firstn k ms /\
  m_queue (now h) = m_queue q ++ firstn k ms /\
  pops h = [].
Proof.
  intros Hcap. unfold run.
  apply (fill_from ms (mk_history q [] []) Hcap).
Qed.

(** ** Returned counts *)

(** The critical section a successful pop ends with: it found [ret]
    messages, took the first and left the others. *)
Lemma section_pop_success q message blocking ret message' q' :
  critical_section q (CallPop message blocking) = (PopRet ret message', q') ->
  0 < ret ->
  ret = queue_size q /\
  m_queue q = message' :: m_queue q' /\
  q' = with_queue q (m_queue q').
Proof.
  simpl. destruct (m_queue q) as [| head rest] eqn:Hq.
  - destruct blocking.
    + destruct (m_cancelled q) eqn:Hc.
      * rewrite (pop_turn_cancelled q message 0 Hc).
        intros E. injection E as <- <- <-. lia.
      * rewrite (pop_turn_empty q message 0 Hc Hq). discriminate.
    + rewrite (pop_nonblocking_empty q message Hq).
      intros E. injection E as <- <- <-. lia.
  - destruct blocking.
    + destruct (m_cancelled q) eqn:Hc.
      * rewrite (pop_turn_cancelled q message 0 Hc).
        intros E. injection E as <- <- <-. lia.
      * rewrite (pop_turn_nonempty q message 0 head rest Hc Hq).
        intros E. injection E as <- <- <-. repeat split.
    + rewrite (pop_nonblocking_nonempty q message head rest Hq).
      intros E. injection E as <- <- <-. repeat split.
Qed.

(** Every return of [pop] is the answer of one critical section on the
    queue as the other threads have left it during the first [n] waits. *)
Lemma pop_returns_from_section q message blocking wakes ret message' q' :
  pop q message blocking wakes = Returned ret message' q' ->
  exists n,
    critical_section (interference q (concat (firstn n wakes)))
      (CallPop message blocking) = (PopRet ret message', q').
Proof.
  unfold pop. destruct blocking.
  - pose proof (pop_blocking_linearised wakes q message) as L.
    intros E. rewrite E in L. exact L.
  - intros E. exists 0%nat. simpl. rewrite E. reflexivity.
Qed.

Lemma interference_keeps_capacity q (cs : list (call IMessagePtr)) :
  m_max_capacity (interference q cs) = m_max_capacity q.
Proof.
  revert q. induction cs as [| c cs IH]; intros q; simpl; [reflexivity |].
  rewrite IH. apply critical_section_fields.
Qed.

(** X4. The count a successful [pop] returns is one more than [size()]
    right after it, in both modes and whatever other threads did while it
    waited; the message it hands over was the head of the queue as those
    threads left it at one of its wake-ups, and the rest of that queue is
    what it leaves. *)
Theorem pop_count_is_size_before_removal q message blocking wakes
    ret message' q' :
  pop q message blocking wakes = Returned ret message' q' ->
  0 < ret ->
  size q' = ret - 1 /\
  exists n,
    m_queue (interference q (concat (firstn n wakes))) =
      message' :: m_queue q'.
Proof.
  intros E Hret.
  destruct (pop_returns_from_section q message blocking wakes ret message' q' E)
    as [n Hcs].
  destruct (section_pop_success _ message blocking ret message' q' Hcs Hret)
    as (Hsize & Hq & _).
  split; [| exists n; exact Hq].
  unfold size. unfold queue_size in *. rewrite Hq in Hsize.
  simpl length in Hsize. lia.
Qed.

(** X5. On a queue whose count has not passed its capacity, no call
    returns a count outside [0 .. m_max_capacity]: not [push], and not
    [pop] in either mode, whatever happened while it waited. *)
Theorem returned_counts_within_capacity q message blocking wakes :
  well_formed q ->
  0 <= fst (push q message) <= m_max_capacity q /\
  match pop q message blocking wakes with
  | Returned ret _ _ => 0 <= ret <= m_max_capacity q
  | Suspended _ _ => True
  end.
Proof.
  intros [Hcap [Hlo Hhi]]. split.
  - destruct (Z.ltb_spec (queue_size q) (m_max_capacity q)) as [Hlt | Hle].
    + destruct (push_room q message Hcap Hlt) as (-> & _). lia.
    + rewrite (push_full q message Hle). simpl. lia.
  - destruct (pop q message blocking wakes) as [ret m' q' | m' q'] eqn:E;
      [| exact I].
    destruct (pop_returns_from_section q message blocking wakes ret m' q' E)
      as [n Hcs].
    set (cs := concat (firstn n wakes)) in *.
    assert (Hinv : capacity_inv (interference q cs)).
    { apply (interference_keeps capacity_inv interfere_keeps_capacity_inv).
      split; assumption. }
    destruct Hinv as [Hlo' Hhi']. rewrite interference_keeps_capacity in Hhi'.
    destruct (Z.ltb_spec 0 ret) as [Hpos | Hzero].
    + destruct (section_pop_success _ message blocking ret m' q' Hcs Hpos)
        as (-> & _). lia.
    + assert (ret = 0); [| lia].
      revert Hcs. simpl. destruct blocking.
      * unfold pop_turn. destruct (m_cancelled (interference q cs)).
        -- intros Hs. injection Hs as <- _ _. reflexivity.
        -- destruct (Z.ltb_spec 0 (queue_size (interference q cs)));
             [| discriminate].
           intros Hs. injection Hs as <- _ _. lia.
      * unfold pop_nonblocking.
        destruct (Z.ltb_spec 0 (queue_size (interference q cs)));
          intros Hs; injection Hs as <- _ _; lia.
Qed.

(** ** Waiting *)

(** X6. Wake-ups that come for nothing leave a consumer asleep: on a queue
    that is empty and not cancelled, a blocking [pop] woken any number of
    times while no other thread has done anything has not returned, and
    has touched neither its out-parameter nor the queue. *)
Theorem spurious_wakeups_keep_waiting q message (n : nat) :
  m_cancelled q = false ->
  m_queue q = [] ->
  pop q message true (repeat [] n) = Suspended message q.
Proof.
  intros Hc Hq. unfold pop. induction n as [| n IH]; simpl.
  - rewrite (pop_turn_empty q message 0 Hc Hq). reflexivity.
  - rewrite (pop_turn_empty q message 0 Hc Hq). rewrite Hc. exact IH.
Qed.

Lemma pop_blocking_sleeps_on_empty wakes : forall q message message' q',
  pop_blocking wakes q message 0 = Suspended message' q' ->
  m_cancelled q' = false /\ m_queue q' = [].
Proof.
  induction wakes as [| w wakes IH]; intros q message message' q'; simpl.
  - destruct (pop_turn q message 0) as [[[ret m] q1] | r] eqn:E;
      [discriminate |].
    intros H. injection H as _ <-. apply (pop_turn_waits q message r E).
  - destruct (pop_turn q message 0) as [[[ret m] q1] | r] eqn:E;
      [discriminate |].
    destruct (pop_turn_waits q message r E) as (-> & _ & _).
    destruct (m_cancelled (interference q w)); [discriminate |].
    apply IH.
Qed.

(** X7. A consumer goes back to sleep only after it has found the queue
    empty and not cancelled: if a [pop] has not returned, it is a blocking
    one, its out-parameter is untouched, and the queue as it was at its
    last check, after what the other threads did during its waits, held
    no message and was not cancelled. *)
Theorem pop_sleeps_only_after_finding_nothing q message blocking wakes
    message' q' :
  pop q message blocking wakes = Suspended message' q' ->
  blocking = true /\
  message' = message /\
  q' = interference q (concat wakes) /\
  m_cancelled q' = false /\
  m_queue q' = [].
Proof.
  unfold pop. destruct blocking.
  - intros E.
    pose proof (pop_blocking_linearised wakes q message) as L.
    rewrite E in L. destruct L as [-> ->].
    destruct (pop_blocking_sleeps_on_empty wakes q message _ _ E) as [Hc Hq].
    repeat split; assumption.
  - unfold pop_nonblocking. destruct (0 <? queue_size q); discriminate.
Qed.

(** X8. A push by another thread hands its message to a consumer asleep
    on an empty queue: the consumer's [pop] returns 1 with that message,
    the queue is empty again, and the push has signalled once. *)
Theorem push_wakes_consumer q z message wakes :
  m_cancelled q = false ->
  m_queue q = [] ->
  0 < m_max_capacity q ->
  pop q z true ([CallPush message] :: wakes) =
    Returned 1 message (mk (m_max_capacity q) false (m_cond q ++ [signal]) []).
Proof.
  intros Hc Hq Hcap. unfold pop. simpl.
  rewrite (pop_turn_empty q z 0 Hc Hq).
  assert (Hpush : interfere q (CallPush message) =
                  mk (m_max_capacity q) false (m_cond q ++ [signal]) [message]).
  { rewrite interfere_push. unfold push, queue_size. rewrite Hq. simpl.
    destruct (Z.ltb_spec 0 (m_max_capacity q)); [| lia].
    simpl. unfold push_back, notify, with_queue. simpl.
    rewrite Hc, Hq. reflexivity. }
  rewrite Hpush. simpl. destruct wakes; reflexivity.
Qed.

(** ** What never changes *)

(** X9. The capacity of a queue never changes, and only [cancel] touches
    the flag: after any critical sections the flag is up if one of them
    was a [cancel] and is as it was otherwise; whole calls, blocking pops
    with their waits included, keep the capacity too. *)
Theorem only_cancel_touches_the_flag q (cs : list (call IMessagePtr)) :
  m_max_capacity (interference q cs) = m_max_capacity q /\
  (In CallCancel cs -> m_cancelled (interference q cs) = true) /\
  (~ In CallCancel cs -> m_cancelled (interference q cs) = m_cancelled q) /\
  (forall os, m_max_capacity (perform_all q os) = m_max_capacity q).
Proof.
  split; [apply interference_keeps_capacity |]. split; [| split].
  - revert q. induction cs as [| c cs IH]; intros q Hin;
      [destruct Hin | destruct Hin as [E | Hin]].
    + subst c. simpl.
      apply (interference_keeps (fun q => m_cancelled q = true)).
      * intros q0 c0. apply interfere_stays_cancelled.
      * reflexivity.
    + simpl. apply IH, Hin.
  - revert q. induction cs as [| c cs IH]; intros q Hn; simpl.
    + reflexivity.
    + rewrite IH by (intros Hin; apply Hn; right; exact Hin).
      assert (Hc : c <> CallCancel) by (intros E; apply Hn; left; exact E).
      unfold interfere. destruct c as [message | message [|] | | |]; simpl;
        try reflexivity.
      * destruct (push_fields q message) as [H _].
        destruct (push q message); exact H.
      * unfold pop_turn. destruct (m_cancelled q) eqn:Hcq; simpl;
          [exact Hcq |].
        destruct (0 <? queue_size q); simpl; exact Hcq.
      * unfold pop_nonblocking. destruct (0 <? queue_size q); reflexivity.
      * contradiction.
  - intros os.
    apply (perform_all_keeps (fun q0 => m_max_capacity q0 = m_max_capacity q)).
    + intros q0 c H. rewrite <- H. apply critical_section_fields.
    + reflexivity.
Qed.

(** X10. A queue created with capacity 0 never holds a message: after any
    calls it is empty, every [push] returns 0 and leaves it as it is, and
    every non-blocking [pop] returns 0. *)
Theorem zero_capacity_never_stores
    (os : list (call IMessagePtr * list (list (call IMessagePtr))))
    message wakes :
  m_queue (perform_all (create 0) os) = [] /\
  push (perform_all (create 0) os) message = (0, perform_all (create 0) os) /\
  pop (perform_all (create 0) os) message false wakes =
    Returned 0 message (perform_all (create 0) os).
Proof.
  set (q := perform_all (create 0) os).
  assert (H : m_max_capacity q = 0 /\ capacity_inv q).
  { apply (perform_all_keeps
             (fun q0 : t IMessagePtr => m_max_capacity q0 = 0 /\ capacity_inv q0)).
    - intros q0 c [Hm Hinv]. split.
      + rewrite <- Hm. apply critical_section_fields.
      + apply interfere_keeps_capacity_inv, Hinv.
    - split; [reflexivity |]. unfold capacity_inv, queue_size. simpl. lia. }
  destruct H as [Hm [Hlo Hhi]].
  assert (Hq : m_queue q = []) by (apply queue_size_zero; lia).
  split; [exact Hq |]. split.
  - apply push_full. lia.
  - apply pop_nonblocking_empty, Hq.
Qed.

End Use.

End MessageQueuePosixUse.

(** * Using [MessageQueueT<M>] *)

Module MessageQueueTUse.

Import MessageQueueT Users.

Section Use.

Variable type_id : Type.
Variable type_eq_dec : forall a b : type_id, {a = b} + {a <> b}.
Variable value : type_id -> Type.

Local Abbreviation queue M := (t type_id value M).

(** X11. A typed [pop] that fails touches nothing: without blocking on an
    empty queue, or blocking on a cancelled one, it returns 0 and leaves
    [dst_message] and the queue as they were. *)
Theorem typed_pop_failure_touches_nothing M (q : queue M) dst_message
    blocking wakes :
  blocking = false /\ MessageQueuePosix.m_queue (m_impl q) = [] \/
  blocking = true /\ is_cancelled q = true ->
  pop type_eq_dec q dst_message blocking wakes = Returned 0 dst_message q.
Proof.
  intros H. destruct q as [impl]. unfold pop, is_cancelled in *. simpl in *.
  destruct H as [[-> Hq] | [-> Hc]].
  - unfold MessageQueuePosix.pop.
    rewrite (MessageQueuePosixFacts.pop_nonblocking_empty impl nullptr Hq).
    reflexivity.
  - rewrite (MessageQueuePosixFacts.pop_blocking_cancelled impl nullptr _ Hc).
    reflexivity.
Qed.

Lemma typed_pop_empty M (q : queue M) dst_message :
  MessageQueuePosix.m_queue (m_impl q) = [] ->
  pop type_eq_dec q dst_message false [] = Returned 0 dst_message q.
Proof.
  intros Hq. destruct q as [impl]. unfold pop. simpl in *.
  unfold MessageQueuePosix.pop.
  rewrite (MessageQueuePosixFacts.pop_nonblocking_empty impl nullptr Hq).
  reflexivity.
Qed.

(** A typed [pop] that finds a holder at the head hands its payload
    over. *)
Lemma typed_pop_head M (q : queue M) dst_message blocking wakes addr v rest :
  MessageQueuePosix.m_queue (m_impl q) = box M (addr, v) :: rest ->
  blocking = false \/ is_cancelled q = false ->
  pop type_eq_dec q dst_message blocking wakes =
    Returned (size q) v (mk (MessageQueuePosix.with_queue (m_impl q) rest)).
Proof.
  intros Hq Hmode.
  pose proof (MessageQueuePosixFacts.queue_size_cons (m_impl q) _ _ Hq) as H1.
  apply (MessageQueueTFacts.pop_unboxes type_id type_eq_dec value M q
           dst_message blocking wakes (size q) addr v);
    [| unfold size, MessageQueuePosix.size; lia].
  unfold size, MessageQueuePosix.size. destruct blocking.
  - apply MessageQueuePosixFacts.pop_blocking_nonempty; [| exact Hq].
    destruct Hmode as [Hb | Hc]; [discriminate | exact Hc].
  - apply MessageQueuePosixFacts.pop_nonblocking_nonempty. exact Hq.
Qed.

Lemma push_each_stores M (avs : list (positive * value M)) : forall q : queue M,
  in_size_t (MessageQueuePosix.m_max_capacity (m_impl q)) ->
  size q + Z.of_nat (length avs) <= MessageQueuePosix.m_max_capacity (m_impl q) ->
  fst (push_each q avs) =
    map (fun i => size q + Z.of_nat i) (seq 1 (length avs)) /\
  MessageQueuePosix.m_queue (m_impl (snd (push_each q avs))) =
    MessageQueuePosix.m_queue (m_impl q) ++ map (box M) avs /\
  MessageQueuePosix.m_cancelled (m_impl (snd (push_each q avs))) =
    MessageQueuePosix.m_cancelled (m_impl q).
Proof.
  induction avs as [| [addr v] avs IH]; intros q Hcap Hroom.
  - simpl. rewrite app_nil_r. repeat split.
  - simpl length in Hroom. cbn [push_each].
    unfold size, MessageQueuePosix.size in *.
    set (h := ptr addr (MessageImpl M v)).
    assert (Hlt : MessageQueuePosix.queue_size (m_impl q) <
                  MessageQueuePosix.m_max_capacity (m_impl q)) by lia.
    destruct (MessageQueuePosixFacts.push_room (m_impl q) h Hcap Hlt)
      as (Hr & Hq & Hc & Hm).
    assert (Epush : push q addr v =
                    (MessageQueuePosix.queue_size (m_impl q) + 1,
                     mk (snd (MessageQueuePosix.push (m_impl q) h)))).
    { unfold push. fold h. rewrite <- Hr.
      destruct (MessageQueuePosix.push (m_impl q) h); reflexivity. }
    rewrite Epush.
    set (impl' := snd (MessageQueuePosix.push (m_impl q) h)) in *.
    specialize (IH (mk impl')). simpl in IH. rewrite Hm in IH.
    assert (Hsize : MessageQueuePosix.queue_size impl' =
                    MessageQueuePosix.queue_size (m_impl q) + 1).
    { unfold MessageQueuePosix.queue_size. rewrite Hq, length_app. simpl. lia. }
    rewrite Hsize in IH.
    destruct IH as (Hrets & Hqs & Hcs); [exact Hcap | lia |].
    destruct (push_each (mk impl') avs) as [rets q'']. simpl in *.
    rewrite Hrets, Hqs, Hq, Hcs, Hc, <- app_assoc.
    repeat split. f_equal.
    rewrite <- (seq_shift (length avs) 1), map_map.
    apply map_ext. intros i. lia.
Qed.

Lemma pop_up_to_drains M (avs : list (positive * value M)) :
  forall (q : queue M) dst_message n,
    MessageQueuePosix.m_queue (m_impl q) = map (box M) avs ->
    (length avs <= n)%nat ->
    exists q',
      pop_up_to type_eq_dec n q dst_message = Some (map snd avs, q') /\
      MessageQueuePosix.m_queue (m_impl q') = [].
Proof.
  induction avs as [| [addr v] avs IH]; intros q dst_message n Hq Hn.
  - destruct n as [| n]; simpl.
    + exists q. split; [reflexivity | exact Hq].
    + rewrite (typed_pop_empty M q dst_message Hq).
      exists q. split; [reflexivity | exact Hq].
  - destruct n as [| n]; [simpl in Hn; lia |].
    simpl in Hn. cbn [pop_up_to].
    rewrite (typed_pop_head M q dst_message false [] addr v (map (box M) avs)
               Hq (or_introl eq_refl)).
    pose proof (MessageQueuePosixFacts.queue_size_cons (m_impl q) _ _ Hq) as H1.
    unfold size, MessageQueuePosix.size.
    destruct (Z.ltb_spec 0 (MessageQueuePosix.queue_size (m_impl q))); [| lia].
    destruct (IH (mk (MessageQueuePosix.with_queue (m_impl q) (map (box M) avs)))
                v n eq_refl) as (q' & Hp & Hq'); [lia |].
    rewrite Hp. exists q'. split; [reflexivity | exact Hq'].
Qed.

(** X12. What a producer pushes in a row, a consumer pops in the same
    order: on a fresh [MessageQueueT<M>] with room for all of them, the
    pushes of [v1 ... vk] return [1 ... k], and non-blocking pops then
    yield exactly [v1 ... vk] and empty the queue; the same holds when the
    queue is cancelled between the pushes and the pops. *)
Theorem typed_sequence_round_trip M max_capacity
    (avs : list (positive * value M)) dst_message n :
  in_size_t max_capacity ->
  Z.of_nat (length avs) <= max_capacity ->
  (length avs <= n)%nat ->
  fst (push_each (create M max_capacity) avs) =
    map Z.of_nat (seq 1 (length avs)) /\
  (exists q',
     pop_up_to type_eq_dec n (snd (push_each (create M max_capacity) avs))
       dst_message = Some (map snd avs, q') /\
     MessageQueuePosix.m_queue (m_impl q') = []) /\
  (exists q',
     pop_up_to type_eq_dec n
       (cancel (snd (push_each (create M max_capacity) avs)))
       dst_message = Some (map snd avs, q') /\
     MessageQueuePosix.m_queue (m_impl q') = []).
Proof.
  intros Hcap Hroom Hn.
  destruct (push_each_stores M avs (create M max_capacity) Hcap)
    as (Hrets & Hq & _); [simpl; exact Hroom |].
  simpl in Hq. split; [| split].
  - rewrite Hrets. apply map_ext. intros i. reflexivity.
  - apply pop_up_to_drains; assumption.
  - apply pop_up_to_drains; [exact Hq | exact Hn].
Qed.

End Use.

End MessageQueueTUse.

(** * Using [IMessageQueue::popT<Derived>] *)

Module IMessageQueueFacts.

Import IMessageQueue.

Section Facts.

Variable type_id : Type.
Variable type_eq_dec : forall a b : type_id, {a = b} + {a <> b}.
Variable value : type_id -> Type.

Local Abbreviation Message := (MessageQueueT.Message type_id value).

Implicit Types (q : MessageQueuePosix.t Message) (message head : Message).

(** X13. What [popT<Derived>] does with a message is decided by the head
    of the queue.  Without blocking, or on a queue that is not cancelled:
    a null head trips the first [assert]; a head of another class trips
    the second; a head that is a [Derived] is handed over as it is, with
    the count before the removal, and the rest stays in the queue. *)
Theorem popT_outcome_by_head Derived q message blocking wakes head rest :
  blocking = false \/ MessageQueuePosix.m_cancelled q = false ->
  MessageQueuePosix.m_queue q = head :: rest ->
  popT type_eq_dec Derived q message blocking wakes =
    match head with
    | nullptr => AssertNotNullFailed
    | ptr addr obj =>
        if is_a type_eq_dec obj Derived
        then Returned (MessageQueuePosix.queue_size q) head
               (MessageQueuePosix.with_queue q rest)
        else AssertSamePointerFailed
    end.
Proof.
  intros Hmode Hq.
  assert (Hpop : MessageQueuePosix.pop q nullptr blocking wakes =
                 MessageQueuePosix.Returned (MessageQueuePosix.queue_size q)
                   head (MessageQueuePosix.with_queue q rest)).
  { destruct blocking.
    - apply MessageQueuePosixFacts.pop_blocking_nonempty; [| exact Hq].
      destruct Hmode as [Hb | Hc]; [discriminate | exact Hc].
    - apply MessageQueuePosixFacts.pop_nonblocking_nonempty. exact Hq. }
  pose proof (MessageQueuePosixFacts.queue_size_cons q head rest Hq) as H1.
  unfold popT. rewrite Hpop.
  destruct (Z.ltb_spec 0 (MessageQueuePosix.queue_size q)); [| lia].
  destruct head as [| addr obj]; simpl; [reflexivity |].
  destruct (is_a type_eq_dec obj Derived); simpl.
  - rewrite Pos.eqb_refl. reflexivity.
  - reflexivity.
Qed.

(** X14. A [popT] that finds nothing touches nothing: without blocking on
    an empty queue, or blocking on a cancelled one, it returns 0 whatever
    [Derived] is, and [message] and the queue are as they were. *)
Theorem popT_failure_touches_nothing Derived q message blocking wakes :
  blocking = false /\ MessageQueuePosix.m_queue q = [] \/
  blocking = true /\ MessageQueuePosix.m_cancelled q = true ->
  popT type_eq_dec Derived q message blocking wakes = Returned 0 message q.
Proof.
  intros [[-> Hq] | [-> Hc]]; unfold popT.
  - unfold MessageQueuePosix.pop.
    rewrite (MessageQueuePosixFacts.pop_nonblocking_empty q nullptr Hq).
    reflexivity.
  - rewrite (MessageQueuePosixFacts.pop_blocking_cancelled q nullptr _ Hc).
    reflexivity.
Qed.

End Facts.

End IMessageQueueFacts.

(** * The uses at work *)

Module ScenariosFacts.

Import Examples Scenarios.

Ltac by_computation :=
  unfold MessageQueuePosix.well_formed, MessageQueuePosix.capacity_inv,
    in_size_t;
  repeat split; vm_compute; discriminate.

Lemma push_signals_exactly_on_empty_witness :
  in_size_t (MessageQueuePosix.m_max_capacity fresh) /\
  MessageQueuePosix.m_cond (snd (MessageQueuePosix.push fresh x)) = [signal] /\
  in_size_t (MessageQueuePosix.m_max_capacity holds_a) /\
  MessageQueuePosix.m_cond (snd (MessageQueuePosix.push holds_a b)) = [signal].
Proof.
  assert (H0 : in_size_t (MessageQueuePosix.m_max_capacity fresh))
    by by_computation.
  assert (H1 : in_size_t (MessageQueuePosix.m_max_capacity holds_a))
    by by_computation.
  split; [exact H0 |]. split; [| split; [exact H1 |]].
  - exact (MessageQueuePosixUse.push_signals_exactly_on_empty fresh x H0).
  - exact (MessageQueuePosixUse.push_signals_exactly_on_empty holds_a b H1).
Defined.

Lemma pushes_fill_the_room_left_witness :
  in_size_t (MessageQueuePosix.m_max_capacity holds_a) /\
  MessageQueuePosix.pushes
    (MessageQueuePosix.run holds_a
       (map MessageQueuePosix.CallPush [b; c; x])) = [b] /\
  MessageQueuePosix.m_queue
    (MessageQueuePosix.now
       (MessageQueuePosix.run holds_a
          (map MessageQueuePosix.CallPush [b; c; x]))) = [a; b].
Proof.
  assert (H : in_size_t (MessageQueuePosix.m_max_capacity holds_a))
    by by_computation.
  split; [exact H |].
  destruct (MessageQueuePosixUse.pushes_fill_the_room_left holds_a [b; c; x] H)
    as (Hp & Hq & _).
  split; [exact Hp | exact Hq].
Defined.

Lemma pop_count_is_size_before_removal_witness :
  MessageQueuePosix.pop holds_a_b z false [] =
    MessageQueuePosix.Returned 2 a
      (MessageQueuePosix.with_queue holds_a_b [b]) /\
  0 < 2 /\
  MessageQueuePosix.size (MessageQueuePosix.with_queue holds_a_b [b]) = 2 - 1.
Proof.
  split; [reflexivity |]. split; [reflexivity |].
  apply (MessageQueuePosixUse.pop_count_is_size_before_removal
           holds_a_b z false [] 2 a _ eq_refl eq_refl).
Defined.

Lemma returned_counts_within_capacity_witness :
  MessageQueuePosix.well_formed holds_a_b /\
  0 <= fst (MessageQueuePosix.push holds_a_b c) <=
    MessageQueuePosix.m_max_capacity holds_a_b.
Proof.
  assert (H : MessageQueuePosix.well_formed holds_a_b) by by_computation.
  split; [exact H |].
  apply (MessageQueuePosixUse.returned_counts_within_capacity
           holds_a_b c false [] H).
Defined.

Lemma spurious_wakeups_keep_waiting_witness :
  MessageQueuePosix.m_cancelled fresh = false /\
  MessageQueuePosix.m_queue fresh = [] /\
  MessageQueuePosix.pop fresh z true [[]; []; []] =
    MessageQueuePosix.Suspended z fresh.
Proof.
  split; [reflexivity |]. split; [reflexivity |].
  exact (MessageQueuePosixUse.spurious_wakeups_keep_waiting
           fresh z 3 eq_refl eq_refl).
Defined.

Lemma pop_sleeps_only_after_finding_nothing_witness :
  MessageQueuePosix.pop fresh z true [[MessageQueuePosix.CallSize]] =
    MessageQueuePosix.Suspended z fresh /\
  MessageQueuePosix.m_cancelled fresh = false /\
  MessageQueuePosix.m_queue fresh = [].
Proof.
  split; [reflexivity |].
  apply (MessageQueuePosixUse.pop_sleeps_only_after_finding_nothing
           fresh z true [[MessageQueuePosix.CallSize]] z fresh eq_refl).
Defined.

Lemma push_wakes_consumer_witness :
  MessageQueuePosix.m_cancelled fresh = false /\
  MessageQueuePosix.m_queue fresh = [] /\
  0 < MessageQueuePosix.m_max_capacity fresh /\
  MessageQueuePosix.pop fresh z true [[MessageQueuePosix.CallPush x]] =
    MessageQueuePosix.Returned 1 x (MessageQueuePosix.mk 2 false [signal] []).
Proof.
  split; [reflexivity |]. split; [reflexivity |]. split; [reflexivity |].
  exact (MessageQueuePosixUse.push_wakes_consumer
           fresh z x [] eq_refl eq_refl eq_refl).
Defined.

Lemma cancel_releases_waiter_witness :
  MessageQueuePosix.m_cancelled fresh = false /\
  MessageQueuePosix.m_queue fresh = [] /\
  MessageQueuePosix.pop fresh z true
    [[MessageQueuePosix.CallCancel; MessageQueuePosix.CallPush x]] =
  MessageQueuePosix.Returned 0 z
    (MessageQueuePosix.mk 2 true [broadcast; signal] [x]).
Proof.
  split; [reflexivity |]. split; [reflexivity |].
  exact (MessageQueuePosixFacts.cancel_releases_waiter
           fresh z [] [MessageQueuePosix.CallPush x] [] eq_refl eq_refl).
Defined.

Lemma typed_pop_failure_touches_nothing_witness :
  MessageQueuePosix.m_queue (MessageQueueT.m_impl int_queue) = [] /\
  MessageQueueT.pop example_type_eq_dec int_queue 5 false [] =
    MessageQueueT.Returned (M := TInt) 0 5 int_queue /\
  MessageQueueT.is_cancelled cancelled_int_queue = true /\
  MessageQueueT.pop example_type_eq_dec cancelled_int_queue 5 true [] =
    MessageQueueT.Returned (M := TInt) 0 5 cancelled_int_queue.
Proof.
  split; [reflexivity |]. split; [| split; [reflexivity |]].
  - exact (MessageQueueTUse.typed_pop_failure_touches_nothing
             example_type example_type_eq_dec example_value TInt
             int_queue 5 false [] (or_introl (conj eq_refl eq_refl))).
  - exact (MessageQueueTUse.typed_pop_failure_touches_nothing
             example_type example_type_eq_dec example_value TInt
             cancelled_int_queue 5 true [] (or_intror (conj eq_refl eq_refl))).
Defined.

Lemma typed_sequence_round_trip_witness :
  in_size_t 2 /\
  fst (Users.push_each int_queue [(1%positive, 7); (2%positive, 8)]) = [1; 2] /\
  exists q',
    Users.pop_up_to example_type_eq_dec 3
      (snd (Users.push_each int_queue [(1%positive, 7); (2%positive, 8)])) 0 =
    Some ([7; 8], q') /\
    MessageQueuePosix.m_queue (MessageQueueT.m_impl q') = [].
Proof.
  assert (H : in_size_t 2) by by_computation.
  split; [exact H |].
  assert (Hroom : Z.of_nat (length [(1%positive, 7); (2%positive, 8)]) <= 2)
    by (vm_compute; discriminate).
  assert (Hn : (length [(1%positive, 7); (2%positive, 8)] <= 3)%nat)
    by (simpl; lia).
  destruct (MessageQueueTUse.typed_sequence_round_trip
              example_type example_type_eq_dec example_value TInt 2
              [(1%positive, 7); (2%positive, 8)] 0 3%nat H Hroom Hn)
    as (Hrets & Hpops & _).
  split; [exact Hrets | exact Hpops].
Defined.

Lemma popT_outcome_by_head_witness :
  MessageQueuePosix.m_queue mixed =
    [ptr 1%positive (MessageQueueT.MessageImpl TInt 7);
     ptr 2%positive (MessageQueueT.ITask 0); nullptr] /\
  IMessageQueue.popT example_type_eq_dec (IMessageQueue.MessageImplOf TInt)
    mixed nullptr false [] =
  IMessageQueue.Returned 3 (ptr 1%positive (MessageQueueT.MessageImpl TInt 7))
    (MessageQueuePosix.with_queue mixed
       [ptr 2%positive (MessageQueueT.ITask 0); nullptr]) /\
  IMessageQueue.popT example_type_eq_dec IMessageQueue.ITaskBase
    mixed nullptr false [] =
  IMessageQueue.AssertSamePointerFailed.
Proof.
  split; [reflexivity |]. split.
  - exact (IMessageQueueFacts.popT_outcome_by_head
             example_type example_type_eq_dec example_value
             (IMessageQueue.MessageImplOf TInt) mixed nullptr false [] _ _
             (or_introl eq_refl) eq_refl).
  - exact (IMessageQueueFacts.popT_outcome_by_head
             example_type example_type_eq_dec example_value
             IMessageQueue.ITaskBase mixed nullptr false [] _ _
             (or_introl eq_refl) eq_refl).
Defined.

Lemma popT_failure_touches_nothing_witness :
  MessageQueuePosix.m_queue
    (MessageQueuePosix.with_queue mixed []) = [] /\
  IMessageQueue.popT example_type_eq_dec IMessageQueue.ITaskBase
    (MessageQueuePosix.with_queue mixed [])
    (ptr 9%positive (MessageQueueT.ITask 4)) false [] =
  IMessageQueue.Returned 0 (ptr 9%positive (MessageQueueT.ITask 4))
    (MessageQueuePosix.with_queue mixed []).
Proof.
  split; [reflexivity |].
  exact (IMessageQueueFacts.popT_failure_touches_nothing
           example_type example_type_eq_dec example_value
           IMessageQueue.ITaskBase (MessageQueuePosix.with_queue mixed [])
           (ptr 9%positive (MessageQueueT.ITask 4)) false []
           (or_introl (conj eq_refl eq_refl))).
Defined.

End ScenariosFacts.
